(** * QReel: the candidate-ranking core

    A shallow embedding of [backend/quantum_search/classical.py]
    ([classical_search], the heuristic ranker) and of
    [backend/quantum_search/grover.py] ([quantum_search], the amplified
    ranker), and the properties of the two rankers; then of the code around
    them that decides which movie is shown: [match_movie_by_title_and_year]
    and the choice of the movie in [search] ([backend/application.py]),
    [select_best_movie_match] ([backend/api/openai_api.py]) and
    [extract_official_trailer] ([backend/api/tmdb.py]).

    Modelling choices.
    - A Python [str] is a [string]; each character stands for the code point
      of the same number (0..255).  [lower] and the white space of [split]
      are CPython's on these code points.
    - Python numbers ([int] counts, [float] popularity and probabilities)
      are exact rationals [Q]; equality of numbers is [Qeq] ([==]).
    - The module [Binary64] gives the heuristic ranker once more with the
      numbers of CPython, for the properties that depend on them: a
      popularity is an [int] of any size or a binary64 [float]
      ([spec_float], precision 53, rounding to nearest even), the division
      by 20 and the sum are the rounded ones, scores are compared as floats,
      and [OverflowError] is raised where CPython raises it.  There the
      order in which a [set] lists its elements is a parameter, since
      Python leaves it to the interpreter.
    - A movie is a [dict]; the keys the rankers read are the fields of the
      record [Movie].  The keys read with [movie.get(key, default)] are
      optional, the key read with [movie['id']] is not.
    - Exceptions are the [Raise] results of the type [result].
    - The module [random] is an oracle: the record [RandomSource] holds the
      draws one call of [quantum_search] makes.  [random.choices] is the one
      of CPython 3.9 and later, which refuses weights whose total is not
      positive.
    - [print] is not modelled. *)

From Stdlib Require Import List String Ascii Bool Arith ZArith QArith Lia Lqa.
From Stdlib Require Import Qfield Permutation SpecFloat.
Import ListNotations.

Local Open Scope string_scope.
Local Open Scope Q_scope.

(** ** Exceptions *)

Module Py.

Inductive exn : Type :=
| ValueError
| ZeroDivisionError
| IndexError
| OverflowError.

Inductive result (A : Type) : Type :=
| Ok (a : A)
| Raise (e : exn).

Arguments Ok {A} a.
Arguments Raise {A} e.

Definition bind {A B : Type} (r : result A) (k : A -> result B) : result B :=
  match r with
  | Ok a => k a
  | Raise e => Raise e
  end.

Definition raises {A : Type} (r : result A) : Prop :=
  exists e, r = Raise e.

End Py.

Import Py.

Notation "x <- c ;; k" := (bind c (fun x => k))
  (at level 61, c at next level, right associativity).

(** ** Numbers *)

(** [x < y] on Python numbers. *)
Definition Qltb (x y : Q) : bool := negb (Qle_bool y x).

(** [x / y]: Python raises on a zero divisor. *)
Definition truediv (x y : Q) : result Q :=
  if Qeq_bool y 0 then Raise ZeroDivisionError else Ok (x / y).

(** [sum(l)]. *)
Definition sum (l : list Q) : Q := fold_left Qplus l 0.

(** The number of a count. *)
Definition of_nat (n : nat) : Q := inject_Z (Z.of_nat n).

(** ** Strings *)

(** [c.lower()] for one code point below 256: the capital letters of ASCII
    and of Latin-1 (U+00C0..U+00DE but the multiplication sign U+00D7). *)
Definition lower_char (c : ascii) : ascii :=
  let n := nat_of_ascii c in
  if ((65 <=? n) && (n <=? 90)
      || (192 <=? n) && (n <=? 222) && negb (n =? 215))%nat
  then ascii_of_nat (n + 32)
  else c.

(** [s.lower()]. *)
Fixpoint lower (s : string) : string :=
  match s with
  | EmptyString => EmptyString
  | String c s' => String (lower_char c) (lower s')
  end.

(** [c.isspace()] for one code point below 256: U+0009..U+000D,
    U+001C..U+0020, U+0085 and U+00A0. *)
Definition is_space (c : ascii) : bool :=
  let n := nat_of_ascii c in
  ((9 <=? n) && (n <=? 13) || (28 <=? n) && (n <=? 32)
   || (n =? 133) || (n =? 160))%nat.

(** [s.split()]: the maximal runs of characters that are not white space,
    in order; no run is empty. *)
Fixpoint split (s : string) : list string :=
  match s with
  | EmptyString => []
  | String c s' =>
      if is_space c then split s'
      else
        match s' with
        | EmptyString => [String c EmptyString]
        | String c' _ =>
            if is_space c' then String c EmptyString :: split s'
            else
              match split s' with
              | w :: ws => String c w :: ws
              | [] => [String c EmptyString]
              end
        end
  end.

(** [t in s] on strings: [t] occurs in [s] as a contiguous substring. *)
Fixpoint contains (s t : string) : bool :=
  String.prefix t s
  || match s with
     | EmptyString => false
     | String _ s' => contains s' t
     end.

(** ** Sets of strings

    A set is the list of its elements without repetition; only the number of
    elements of a set is ever observed. *)

(** [set(l)]. *)
Definition set (l : list string) : list string := nodup string_dec l.

(** [w in a] for a set [a]. *)
Definition mem (w : string) (a : list string) : bool :=
  existsb (String.eqb w) a.

(** [a.intersection(b)]. *)
Definition intersection (a b : list string) : list string :=
  filter (fun w => mem w b) a.

(** [len(a)]. *)
Definition len {A : Type} (l : list A) : nat := List.length l.

(** ** Movies *)

Record Movie : Type := mkMovie {
  id : Z;
  title : option string;
  overview : option string;
  popularity : option Q
}.

(** [d.get(key, default)]. *)
Definition get {A : Type} (field : option A) (default : A) : A :=
  match field with
  | Some v => v
  | None => default
  end.

(** ** classical.py *)

Module Classical.

(** The score of one movie: the body of the loop up to [score = ...]. *)
Definition title_matches (query_words : list string) (movie : Movie) : nat :=
  let title := lower (get (title movie) "") in
  let title_words := set (split title) in
  len (intersection query_words title_words) * 3.

Definition overview_matches (query_words : list string) (movie : Movie) : nat :=
  let overview := lower (get (overview movie) "") in
  let overview_words := set (split overview) in
  len (intersection query_words overview_words).

Definition popularity_term (movie : Movie) : Q :=
  get (popularity movie) 0 / 20.

Definition score (query_words : list string) (movie : Movie) : Q :=
  of_nat (title_matches query_words movie)
  + of_nat (overview_matches query_words movie)
  + popularity_term movie.

(** The loop state: [(best_match, highest_score)]. *)
Definition state : Type := (option Movie * Q)%type.

(** One turn of [for movie in movies]. *)
Definition step (query_words : list string) (st : state) (movie : Movie) : state :=
  let s := score query_words movie in
  if Qltb (snd st) s then (Some movie, s) else st.

Definition query_words (query : string) : list string :=
  set (split (lower query)).

(** The score vector the ranker computes, one entry per movie. *)
Definition scores (movies : list Movie) (query : string) : list Q :=
  map (score (query_words query)) movies.

Definition classical_search (movies : list Movie) (query : string)
  : result (option Z) :=
  match movies with
  | [] => Ok None
  | first :: _ =>
      let st := fold_left (step (query_words query)) movies (None, -1) in
      match fst st with
      | Some best_match => Ok (Some (id best_match))
      | None => Ok (Some (id first))
      end
  end.

End Classical.

(** ** Lists and the module [random] *)

(** [l[i]]. *)
Definition getitem {A : Type} (l : list A) (i : nat) : result A :=
  match nth_error l i with
  | Some v => Ok v
  | None => Raise IndexError
  end.

(** [l[i] = v]. *)
Fixpoint setitem {A : Type} (l : list A) (i : nat) (v : A) : result (list A) :=
  match l, i with
  | [], _ => Raise IndexError
  | _ :: l', O => Ok (v :: l')
  | x :: l', S j => r <- setitem l' j v ;; Ok (x :: r)
  end.

(** [max(l)]: the first of the greatest items. *)
Definition max (l : list Q) : result Q :=
  match l with
  | [] => Raise ValueError
  | x :: l' => Ok (fold_left (fun m y => if Qltb m y then y else m) l' x)
  end.

(** [l.index(v)]: the first position whose item equals [v]. *)
Fixpoint index (l : list Q) (v : Q) : result nat :=
  match l with
  | [] => Raise ValueError
  | x :: l' => if Qeq_bool x v then Ok O else i <- index l' v ;; Ok (S i)
  end.

(** [l.remove(v)]: drops the first item equal to [v]. *)
Fixpoint remove (l : list nat) (v : nat) : result (list nat) :=
  match l with
  | [] => Raise ValueError
  | x :: l' => if (x =? v)%nat then Ok l' else r <- remove l' v ;; Ok (x :: r)
  end.

(** [range(n)[i]]. *)
Definition range_getitem (n i : nat) : result nat :=
  if (i <? n)%nat then Ok i else Raise IndexError.

(** [list(itertools.accumulate(l))]: the running sums. *)
Fixpoint accumulate_from (acc : Q) (l : list Q) : list Q :=
  match l with
  | [] => []
  | x :: l' => (acc + x) :: accumulate_from (acc + x) l'
  end.

Definition accumulate (l : list Q) : list Q := accumulate_from 0 l.

(** [bisect.bisect_right(a, x, lo, hi)]: the binary search
    [while lo < hi: mid = (lo + hi) // 2;
       if x < a[mid]: hi = mid else: lo = mid + 1].
    Every turn shrinks [hi - lo], so [hi - lo] turns are enough. *)
Fixpoint bisect_loop (turns : nat) (a : list Q) (x : Q) (lo hi : nat) : nat :=
  match turns with
  | O => lo
  | S t =>
      if (lo <? hi)%nat then
        let mid := ((lo + hi) / 2)%nat in
        if Qltb x (nth mid a 0) then bisect_loop t a x lo mid
        else bisect_loop t a x (mid + 1) hi
      else lo
  end.

Definition bisect (a : list Q) (x : Q) (lo hi : nat) : nat :=
  bisect_loop (hi - lo) a x lo hi.

(** The draws of one call of [quantum_search]: the [random()] of
    [random.choices], the [random.random()] of the anomaly test and the
    integer behind [random.choice], which is taken modulo the length of the
    list.  The properties below hold for all values of the three fields, so
    for all those the generator can produce. *)
Record RandomSource : Type := mkRandom {
  choices_random : Q;
  anomaly_random : Q;
  choice_randbelow : nat
}.

(** [random.choices(range(n), weights=weights, k=1)[0]]. *)
Definition choices (n : nat) (weights : list Q) (rs : RandomSource)
  : result nat :=
  let cum_weights := accumulate weights in
  if negb (len cum_weights =? n)%nat then Raise ValueError
  else
    total <- getitem cum_weights (len cum_weights - 1) ;;
    if Qle_bool total 0 then Raise ValueError
    else
      let hi := (n - 1)%nat in
      range_getitem n (bisect cum_weights (choices_random rs * total) 0 hi).

(** [random.choice(l)]: the item at a position drawn below [len(l)]. *)
Definition choice (l : list nat) (rs : RandomSource) : result nat :=
  match l with
  | [] => Raise IndexError
  | _ => getitem l (choice_randbelow rs mod len l)
  end.

(** ** grover.py *)

Module Grover.

Definition query_terms (query : string) : list string :=
  split (lower query).

(** [sum(w for term in query_terms if term in text)]. *)
Definition count_terms (w : nat) (query_terms : list string) (text : string)
  : nat :=
  list_sum (map (fun _ => w) (filter (fun term => contains text term) query_terms)).

Definition title_score (query_terms : list string) (movie : Movie) : nat :=
  let title := lower (get (title movie) "") in
  count_terms 3 query_terms title.

Definition overview_score (query_terms : list string) (movie : Movie) : nat :=
  let overview := lower (get (overview movie) "") in
  count_terms 1 query_terms overview.

Definition popularity_term (movie : Movie) : Q :=
  get (popularity movie) 0 / 20.

Definition total_score (query_terms : list string) (movie : Movie) : Q :=
  of_nat (title_score query_terms movie)
  + of_nat (overview_score query_terms movie)
  + popularity_term movie.

(** The score vector the ranker computes, one entry per movie. *)
Definition scores (movies : list Movie) (query : string) : list Q :=
  map (total_score (query_terms query)) movies.

(** [[score / total for score in scores]]. *)
Fixpoint normalize (scores : list Q) (total : Q) : result (list Q) :=
  match scores with
  | [] => Ok []
  | score :: rest =>
      p <- truediv score total ;;
      ps <- normalize rest total ;;
      Ok (p :: ps)
  end.

(** [sum(scores) or 1] and the division by it. *)
Definition probabilities (scores : list Q) : result (list Q) :=
  let total := if Qeq_bool (sum scores) 0 then 1 else sum scores in
  normalize scores total.

(** [for i in range(len(l)): if i != max_idx: l[i] *= reduction_factor],
    with [i] the position of the head of [l]. *)
Fixpoint scale_others (i max_idx : nat) (reduction_factor : Q) (l : list Q)
  : list Q :=
  match l with
  | [] => []
  | x :: l' =>
      (if (i =? max_idx)%nat then x else x * reduction_factor)
        :: scale_others (S i) max_idx reduction_factor l'
  end.

(** The sum the loop body computes after the amplification. *)
Definition other_sum (max_idx : nat) (amplified_probs : list Q) : result Q :=
  p <- getitem amplified_probs max_idx ;;
  Ok (sum amplified_probs - p).

(** One turn of [for _ in range(iterations)]. *)
Definition amplify_step (max_idx : nat) (amplified_probs : list Q)
  : result (list Q) :=
  p <- getitem amplified_probs max_idx ;;
  amplified_probs <- setitem amplified_probs max_idx (p * (3 # 2)) ;;
  other_sum <- other_sum max_idx amplified_probs ;;
  if Qltb 0 other_sum then
    p <- getitem amplified_probs max_idx ;;
    reduction_factor <- truediv (1 - p) other_sum ;;
    Ok (scale_others 0 max_idx reduction_factor amplified_probs)
  else Ok amplified_probs.

(** The vector after [iterations] turns. *)
Fixpoint amplify (iterations max_idx : nat) (amplified_probs : list Q)
  : result (list Q) :=
  match iterations with
  | O => Ok amplified_probs
  | S k =>
      amplified_probs <- amplify_step max_idx amplified_probs ;;
      amplify k max_idx amplified_probs
  end.

(** [int(math.sqrt(n))]. *)
Definition iterations (n : nat) : nat := Nat.sqrt n.

(** [probabilities.index(max(probabilities))]. *)
Definition max_index (probabilities : list Q) : result nat :=
  m <- max probabilities ;;
  index probabilities m.

(** The weights handed to [random.choices]. *)
Definition amplified (movies : list Movie) (query : string)
  : result (nat * list Q) :=
  probabilities <- probabilities (scores movies query) ;;
  let n := len movies in
  max_idx <- max_index probabilities ;;
  amplified_probs <- amplify (iterations n) max_idx probabilities ;;
  Ok (max_idx, amplified_probs).

(** The anomaly branch. *)
Definition tunnel (n chosen_idx : nat) (rs : RandomSource) : result nat :=
  let quantum_anomaly := Qltb (anomaly_random rs) (5 # 100) in
  if quantum_anomaly then
    available_indices <- remove (seq 0 n) chosen_idx ;;
    match available_indices with
    | [] => Ok chosen_idx
    | _ => choice available_indices rs
    end
  else Ok chosen_idx.

Definition quantum_search (movies : list Movie) (query : string)
  (rs : RandomSource) : result (option Z) :=
  match movies with
  | [] => Ok None
  | _ =>
      a <- amplified movies query ;;
      let amplified_probs := snd a in
      chosen_idx <- choices (len movies) amplified_probs rs ;;
      chosen_idx <- tunnel (len movies) chosen_idx rs ;;
      movie <- getitem movies chosen_idx ;;
      Ok (Some (id movie))
  end.

End Grover.

(** ** The example of the specification *)

Module Example.

Definition the_matrix : Movie :=
  mkMovie 1 (Some "The Matrix")
    (Some "A hacker discovers reality is simulated") (Some 80).

Definition matrix_reloaded : Movie :=
  mkMovie 2 (Some "Matrix Reloaded") (Some "Neo fights machines") (Some 40).

Definition candidates : list Movie := [the_matrix; matrix_reloaded].

Definition query : string := "matrix hacker".

(** A candidate the query says nothing about. *)
Definition inception : Movie :=
  mkMovie 3 (Some "Inception") None (Some 20).

(** One dominant candidate and one more. *)
Definition dominant : list Movie := [the_matrix; inception].

(** A candidate with no overlap with the query and no popularity. *)
Definition unknown : Movie :=
  mkMovie 4 (Some "Solaris") (Some "A psychologist on a space station") (Some 0).

(** Another one, with no overview and no popularity at all. *)
Definition stalker : Movie := mkMovie 7 (Some "Stalker") None None.

(** Two candidates with equal scores. *)
Definition tied : list Movie :=
  [mkMovie 5 (Some "Matrix") None (Some 40);
   mkMovie 6 (Some "The Matrix") None (Some 40)].

End Example.

(** [movie] with its popularity set to [p], all else unchanged. *)
Definition with_popularity (movie : Movie) (p : Q) : Movie :=
  mkMovie (id movie) (title movie) (overview movie) (Some p).

(** [l] with the item at position [i] replaced by [v]; [l] itself when [i]
    is out of range. *)
Fixpoint replace {A : Type} (l : list A) (i : nat) (v : A) : list A :=
  match l, i with
  | [], _ => []
  | _ :: l', O => v :: l'
  | x :: l', S j => x :: replace l' j v
  end.

(** The data model: a popularity is never negative. *)
Definition valid_candidate (movie : Movie) : Prop :=
  0 <= get (popularity movie) 0.

(** ** More of Python's strings *)

(** [s[:n]]. *)
Fixpoint slice_to (n : nat) (s : string) : string :=
  match n, s with
  | S n', String c s' => String c (slice_to n' s')
  | _, _ => EmptyString
  end.

(** [s.lstrip()]. *)
Fixpoint lstrip (s : string) : string :=
  match s with
  | EmptyString => EmptyString
  | String c s' => if is_space c then lstrip s' else s
  end.

(** [s.rstrip()]. *)
Fixpoint rstrip (s : string) : string :=
  match s with
  | EmptyString => EmptyString
  | String c s' =>
      match rstrip s' with
      | EmptyString => if is_space c then EmptyString else String c EmptyString
      | r => String c r
      end
  end.

(** [s.strip()]. *)
Definition strip (s : string) : string := rstrip (lstrip s).

(** The class [\d] of [re] on code points below 256: the ASCII digits. *)
Definition is_digit (c : ascii) : bool :=
  let n := nat_of_ascii c in ((48 <=? n) && (n <=? 57))%nat.

(** The longest prefix of digits. *)
Fixpoint take_digits (s : string) : string :=
  match s with
  | EmptyString => EmptyString
  | String c s' => if is_digit c then String c (take_digits s') else EmptyString
  end.

(** [re.search(r'(\d+)', s)] and its [group(1)]: the leftmost run of
    digits, as long as it goes; [None] when [s] has no digit. *)
Fixpoint search_digits (s : string) : option string :=
  match s with
  | EmptyString => None
  | String c s' => if is_digit c then Some (take_digits s) else search_digits s'
  end.

Definition digit_value (c : ascii) : Z := Z.of_nat (nat_of_ascii c) - 48.

Fixpoint int_from (acc : Z) (digits : string) : Z :=
  match digits with
  | EmptyString => acc
  | String c s' => int_from (10 * acc + digit_value c) s'
  end.

(** [int(digits)] for a non-empty string of digits.  CPython 3.11 and later
    refuses more than 4300 digits. *)
Definition int (digits : string) : result Z :=
  if (4300 <? String.length digits)%nat then Raise ValueError
  else Ok (int_from 0 digits).

(** ** The movie dicts of the search results

    [search_movies] returns the dicts the rankers read; the exact match on
    title and year reads the key [release_date] as well. *)
Record Entry : Type := mkEntry {
  entry : Movie;
  release_date : option string
}.

(** ** tmdb.py *)

Module Tmdb.

(** A video dict: the keys [extract_official_trailer] reads. *)
Record Video : Type := mkVideo {
  video_type : option string;
  site : option string;
  official : option bool;
  key : option string
}.

(** [o == s] for the value of [d.get(k)] and a string. *)
Definition eq_str (o : option string) (s : string) : bool :=
  match o with
  | Some v => String.eqb v s
  | None => false
  end.

(** The text of [{video.get('key')}] in the f-string: a missing key
    prints as [None]. *)
Definition format (o : option string) : string := get o "None".

(** The test of the loop of [extract_official_trailer]. *)
Definition is_official_trailer (video : Video) : bool :=
  eq_str (video_type video) "Trailer"
  && eq_str (site video) "YouTube"
  && get (official video) false.

Fixpoint extract_official_trailer (videos : list Video) : option string :=
  match videos with
  | [] => None
  | video :: rest =>
      if is_official_trailer video
      then Some ("https://www.youtube.com/watch?v=" ++ format (key video))
      else extract_official_trailer rest
  end.

End Tmdb.

(** ** openai_api.py

    [select_best_movie_match] sends a prompt and reads the answer of
    [call_openai]: [None] on any failure, the stripped text otherwise.  The
    answer is the parameter [reply]; the prompt is not modelled. *)

Module OpenAI.

Definition select_best_movie_match
  (movies : list Entry) (original_query : string) (reply : option string)
  : result (option Z) :=
  match movies with
  | [] => Ok None
  | first :: _ =>
      let fallback := Ok (Some (id (entry first))) in
      match reply with
      | None => fallback
      | Some EmptyString => fallback
      | Some text =>
          match search_digits text with
          | None => fallback
          | Some digits =>
              n <- int digits ;;
              let idx := (n - 1)%Z in
              if ((0 <=? idx) && (idx <? Z.of_nat (len movies)))%Z
              then movie <- getitem movies (Z.to_nat idx) ;;
                   Ok (Some (id (entry movie)))
              else fallback
          end
      end
  end.

End OpenAI.

(** ** application.py *)

Module Application.

(** The test of the loop of [match_movie_by_title_and_year], with the
    title and the year already normalised. *)
Definition is_match (movie : Entry) (title_ year_ : string) : bool :=
  let movie_title := strip (lower (get (title (entry movie)) "")) in
  let movie_year := slice_to 4 (get (release_date movie) "") in
  String.eqb movie_title title_ && String.eqb movie_year year_.

(** The loop. *)
Fixpoint match_loop (movies : list Entry) (title_ year_ : string) : option Z :=
  match movies with
  | [] => None
  | movie :: rest =>
      if is_match movie title_ year_
      then Some (id (entry movie))
      else match_loop rest title_ year_
  end.

Definition match_movie_by_title_and_year
  (movies : list Entry) (title_ year_ : string) : option Z :=
  let title_ := strip (lower title_) in
  let year_ := strip year_ in
  match_loop movies title_ year_.

(** What [search] can raise: an exception of Python or of FastAPI. *)
Inductive raised : Type :=
| Builtin (e : exn)
| HTTPException (status_code : nat) (detail : string).

Inductive outcome (A : Type) : Type :=
| Return (a : A)
| Raised (r : raised).

Arguments Return {A} a.
Arguments Raised {A} r.

(** A call of one of the rankers inside [search]. *)
Definition call {A : Type} (r : result A) : outcome A :=
  match r with
  | Ok a => Return a
  | Raise e => Raised (Builtin e)
  end.

(** [try: ... except Exception as e: raise HTTPException(500, ...)].
    [HTTPException] is an [Exception] too. *)
Definition handler {A : Type} (body : outcome A) : outcome A :=
  match body with
  | Return a => Return a
  | Raised _ => Raised (HTTPException 500 "Internal server error")
  end.

(** The body of the request. *)
Record SearchRequest : Type := mkRequest {
  query : string;
  use_quantum : bool
}.

(** The dict [refine_search_query] returns: the keys [search] reads, each
    a string when present. *)
Record RefinedData : Type := mkRefined {
  refined_query : option string;
  intent_type : option string;
  likely_year : option string
}.

(** [not movie_id]: [None] and [0] are false. *)
Definition falsy (movie_id : option Z) : bool :=
  match movie_id with
  | None => true
  | Some i => (i =? 0)%Z
  end.

(** Line 76 of [search]:
    [match_movie_by_title_and_year(movies, refined_query, likely_year)
     if likely_year else None]. *)
Definition exact_match
  (movies : list Entry) (refined_query : string) (likely_year : option string)
  : option Z :=
  match likely_year with
  | None => None
  | Some EmptyString => None
  | Some year_ => match_movie_by_title_and_year movies refined_query year_
  end.

(** Lines 79 to 82 of [search]: the ranker the request asks for; without
    [use_quantum], [select_best_movie_match(...) or classical_search(...)]. *)
Definition ranked
  (request : SearchRequest) (refined_query : string)
  (movies : list Entry) (reply : option string) (rs : RandomSource)
  : outcome (option Z) :=
  if use_quantum request then
    call (Grover.quantum_search (map entry movies) refined_query rs)
  else
    match call (OpenAI.select_best_movie_match movies (query request) reply)
    with
    | Raised r => Raised r
    | Return best =>
        if falsy best
        then call (Classical.classical_search (map entry movies) refined_query)
        else Return best
    end.

(** [search] up to the choice of [movie_id], the argument of
    [get_movie_details], with its exception handler.  The results of the
    awaited calls are parameters: [refined_data] of [refine_search_query],
    [movies] of [search_movies], [reply] of [call_openai] inside
    [select_best_movie_match], and the draws [rs] of [quantum_search]. *)
Definition search_movie_id
  (request : SearchRequest) (refined_data : RefinedData)
  (movies : list Entry) (reply : option string) (rs : RandomSource)
  : outcome (option Z) :=
  handler
    (let refined_query := get (refined_query refined_data) (query request) in
     let likely_year := likely_year refined_data in
     match movies with
     | [] => Raised (HTTPException 404 "No movies found")
     | _ =>
         let movie_id := exact_match movies refined_query likely_year in
         if falsy movie_id
         then ranked request refined_query movies reply rs
         else Return movie_id
     end).

End Application.

(** ** classical.py on binary64

    Where the comparison of two computed scores decides, the numbers are
    those of CPython: an [int] is a [Z], a [float] is a binary64 number of
    IEEE 754, a [spec_float] with the operations of the Standard Library at
    precision 53 and exponent bound 1024, rounding to nearest even.  A set
    lists its elements in an order that the interpreter chooses: the
    parameter [arrange]. *)

Module Binary64.

Definition prec : Z := 53.
Definition emax : Z := 1024.

(** A number of Python. *)
Inductive number : Type :=
| Int (z : Z)
| Float (f : spec_float).

(** The movie dict with the numbers of Python. *)
Record Movie : Type := mkMovie {
  id : Z;
  title : option string;
  overview : option string;
  popularity : option number
}.

(** [float(z)]: the nearest float, [OverflowError] beyond the range. *)
Definition float_of_int (z : Z) : result spec_float :=
  match binary_normalize prec emax z 0 false with
  | S754_infinity _ => Raise OverflowError
  | f => Ok f
  end.

(** The integer [z], not rounded. *)
Definition unrounded (z : Z) : spec_float :=
  match z with
  | Z0 => S754_zero false
  | Zpos p => S754_finite false p 0
  | Zneg p => S754_finite true p 0
  end.

(** [x / d] for an int [d]: the quotient of two ints is rounded once and
    raises [OverflowError] beyond the range; a float is divided by
    [float(d)]. *)
Definition truediv (x : number) (d : Z) : result spec_float :=
  if (d =? 0)%Z then Raise ZeroDivisionError
  else
    match x with
    | Int z =>
        match SFdiv prec emax (unrounded z) (unrounded d) with
        | S754_infinity _ => Raise OverflowError
        | q => Ok q
        end
    | Float f =>
        fd <- float_of_int d ;;
        Ok (SFdiv prec emax f fd)
    end.

(** [n + f] for an int [n] and a float [f]. *)
Definition add (n : Z) (f : spec_float) : result spec_float :=
  fn <- float_of_int n ;;
  Ok (SFadd prec emax fn f).

(** The initial [highest_score = -1]; a float is compared with this int by
    value, that of the float [-1.0]. *)
Definition minus_one : spec_float := S754_finite true 4503599627370496 (-52).

(** A float that is neither negative nor NaN; the zeros of both signs
    count. *)
Definition nonnegative (f : spec_float) : bool :=
  match f with
  | S754_zero _ => true
  | S754_infinity s => negb s
  | S754_nan => false
  | S754_finite s _ _ => negb s
  end.

(** A candidate of the data model: its popularity, where present, is not
    negative. *)
Definition valid_candidate (movie : Movie) : Prop :=
  match popularity movie with
  | None => True
  | Some (Int z) => (0 <= z)%Z
  | Some (Float f) => nonnegative f = true
  end.

(** What is asked of the order in which sets list their elements. *)
Definition hash_order (arrange : list string -> list string) : Prop :=
  forall l : list string,
    NoDup (arrange l) /\ forall w : string, In w (arrange l) <-> In w l.

Section Sets.

(** [set(l)] lists the elements of [l] as [arrange l]. *)
Variable arrange : list string -> list string.

(** [len(a.intersection(b))]. *)
Definition common (a b : list string) : nat :=
  len (arrange (filter (fun w => mem w b) a)).

(** The body of the loop up to [score = ...]. *)
Definition score (query_words : list string) (movie : Movie)
  : result spec_float :=
  let title := lower (get (title movie) "") in
  let overview := lower (get (overview movie) "") in
  let title_words := arrange (split title) in
  let overview_words := arrange (split overview) in
  let title_matches := (common query_words title_words * 3)%nat in
  let overview_matches := common query_words overview_words in
  popularity <- truediv (get (popularity movie) (Int 0)) 20 ;;
  add (Z.of_nat title_matches + Z.of_nat overview_matches) popularity.

(** The loop state: [(best_match, highest_score)]. *)
Definition state : Type := (option Movie * spec_float)%type.

(** [if score > highest_score: ...]. *)
Definition keep_best (st : state) (movie : Movie) (s : spec_float) : state :=
  if SFltb (snd st) s then (Some movie, s) else st.

(** [for movie in movies]; an exception ends the loop. *)
Fixpoint loop (query_words : list string) (movies : list Movie) (st : state)
  : result state :=
  match movies with
  | [] => Ok st
  | movie :: rest =>
      s <- score query_words movie ;;
      loop query_words rest (keep_best st movie s)
  end.

Definition query_words (query : string) : list string :=
  arrange (split (lower query)).

(** The scores the loop computes, in the order of the list. *)
Fixpoint scores (query_words : list string) (movies : list Movie)
  : result (list spec_float) :=
  match movies with
  | [] => Ok []
  | movie :: rest =>
      s <- score query_words movie ;;
      ss <- scores query_words rest ;;
      Ok (s :: ss)
  end.

Definition classical_search (movies : list Movie) (query : string)
  : result (option Z) :=
  match movies with
  | [] => Ok None
  | first :: _ =>
      st <- loop (query_words query) movies (None, minus_one) ;;
      match fst st with
      | Some best_match => Ok (Some (id best_match))
      | None => Ok (Some (id first))
      end
  end.

End Sets.

(** Two orders a set may list its elements in. *)
Definition first_seen (l : list string) : list string := nodup string_dec l.
Definition last_seen (l : list string) : list string :=
  rev (nodup string_dec l).

(** The floats 12.346 and 72.346. *)
Definition f12_346 : spec_float := S754_finite false 6950180124939518 (-49).
Definition f72_346 : spec_float := S754_finite false 5090897166277280 (-46).

(** In binary64 the scores 3 + 12.346/20 and 72.346/20 are one float. *)
Definition tied : list Movie :=
  [mkMovie 71 (Some "The Matrix") None (Some (Float f12_346));
   mkMovie 72 (Some "Solaris") None (Some (Float f72_346))].

(** An integer popularity whose twentieth is beyond the floats. *)
Definition huge : list Movie :=
  [mkMovie 70 (Some "The Matrix") None (Some (Int (10 ^ 400)))].

End Binary64.

(** ** Notions used by the properties *)

(** [q] to the power [k]. *)
Fixpoint power (q : Q) (k : nat) : Q :=
  match k with
  | O => 1
  | S k' => q * power q k'
  end.

(** The turn in closed form, for a target position inside the vector. *)
Definition amplified_once (max_idx : nat) (v : list Q) : list Q :=
  let p := nth max_idx v 0 in
  let v1 := replace v max_idx (p * (3 # 2)) in
  let os := sum v1 - nth max_idx v1 0 in
  if Qltb 0 os
  then Grover.scale_others 0 max_idx ((1 - nth max_idx v1 0) / os) v1
  else v1.

(** [sum(scores) or 1]. *)
Definition total_or_one (scores : list Q) : Q :=
  if Qeq_bool (sum scores) 0 then 1 else sum scores.

(** The claim C3 as the specification words it: after each of the
    [iterations] turns the vector sums to 1. *)
Definition normalized_after_every_iteration
  (movies : list Movie) (query : string) : Prop :=
  forall (probabilities : list Q) (max_idx k : nat) (v : list Q),
    Grover.probabilities (Grover.scores movies query) = Ok probabilities ->
    Grover.max_index probabilities = Ok max_idx ->
    (1 <= k <= Grover.iterations (len movies))%nat ->
    Grover.amplify k max_idx probabilities = Ok v ->
    sum v == 1.

(** A vector of zeros, up to [==]. *)
Definition all_zero (l : list Q) : Prop := Forall (fun x => x == 0) l.

(** The claim C2 as the specification words it: the two score vectors are
    equal entry by entry. *)
Definition shared_scorer (movies : list Movie) (query : string) : Prop :=
  Forall2 Qeq (Classical.scores movies query) (Grover.scores movies query).

(** [text] holds a query term as a substring only where it holds it as a
    word. *)
Definition whole_words (query text : string) : Prop :=
  forall term : string,
    In term (Grover.query_terms query) ->
    contains text term = true ->
    In term (split text).

(** * Properties *)

(** ** Numbers *)

Lemma Qltb_true (x y : Q) : Qltb x y = true <-> x < y.
Proof.
  unfold Qltb. rewrite negb_true_iff. split; intro H.
  - apply Qnot_le_lt. intro L. apply Qle_bool_iff in L. congruence.
  - destruct (Qle_bool y x) eqn:E; [|reflexivity].
    apply Qle_bool_iff in E. exfalso. apply (Qlt_not_le _ _ H E).
Qed.

Lemma Qltb_false (x y : Q) : Qltb x y = false <-> y <= x.
Proof.
  unfold Qltb. rewrite negb_false_iff. apply Qle_bool_iff.
Qed.


Lemma of_nat_le (n m : nat) : (n <= m)%nat -> of_nat n <= of_nat m.
Proof.
  intro H. unfold of_nat, Qle. simpl. lia.
Qed.

Lemma fold_plus_shift (l : list Q) (a : Q) :
  fold_left Qplus l a == a + sum l.
Proof.
  unfold sum. revert a. induction l as [|x l IH]; intro a; simpl.
  - ring.
  - rewrite (IH (a + x)), (IH (0 + x)). ring.
Qed.

Lemma sum_cons (x : Q) (l : list Q) : sum (x :: l) == x + sum l.
Proof.
  unfold sum at 1. simpl. rewrite fold_plus_shift. ring.
Qed.

Lemma sum_nil : sum [] == 0.
Proof. reflexivity. Qed.

(** ** Empty input *)

(** C5: on the empty candidate list both rankers return [None], whatever the
    query and the random draws, and none of them raises. *)
Theorem empty_input_no_selection :
  forall (query : string) (rs : RandomSource),
    Classical.classical_search [] query = Ok None
    /\ Grover.quantum_search [] query rs = Ok None
    /\ ~ raises (Classical.classical_search [] query)
    /\ ~ raises (Grover.quantum_search [] query rs).
Proof.
  intros query rs. repeat split; intros [e H]; discriminate H.
Qed.

(** ** The worked example *)

(** C6: on the two candidates of the example and the query "matrix hacker"
    the heuristic ranker returns id 1; the first score is 3 + 1 + 4 = 8 and
    the second 3 + 0 + 2 = 5. *)
Theorem end_to_end_example :
  let qw := Classical.query_words Example.query in
  Classical.classical_search Example.candidates Example.query = Ok (Some 1%Z)
  /\ Classical.title_matches qw Example.the_matrix = 3%nat
  /\ Classical.overview_matches qw Example.the_matrix = 1%nat
  /\ Classical.popularity_term Example.the_matrix == 4
  /\ Classical.title_matches qw Example.matrix_reloaded = 3%nat
  /\ Classical.overview_matches qw Example.matrix_reloaded = 0%nat
  /\ Classical.popularity_term Example.matrix_reloaded == 2
  /\ Forall2 Qeq (Classical.scores Example.candidates Example.query) [8; 5].
Proof.
  repeat split; try reflexivity.
  repeat constructor; reflexivity.
Qed.

(** The order in which a Python set enumerates its elements is not fixed;
    the number of elements of an intersection does not depend on it. *)
Lemma mem_In (w : string) (a : list string) : mem w a = true <-> In w a.
Proof.
  unfold mem. rewrite existsb_exists. split.
  - intros [x [Hx E]]. apply String.eqb_eq in E. now subst.
  - intro H. exists w. split; [assumption | apply String.eqb_refl].
Qed.

Lemma intersection_order_irrelevant (a a' b b' : list string) :
  Permutation a a' ->
  Permutation b b' ->
  len (intersection a b) = len (intersection a' b').
Proof.
  intros Ha Hb. unfold len, intersection.
  transitivity (List.length (filter (fun w => mem w b') a)).
  - f_equal. apply filter_ext. intro w.
    apply eq_true_iff_eq. rewrite !mem_In.
    split; intro H.
    + eapply Permutation_in; eassumption.
    + eapply Permutation_in;
        [apply Permutation_sym|]; eassumption.
  - apply Permutation_length.
    clear Hb. induction Ha; simpl.
    + constructor.
    + destruct (mem x b'); [constructor|]; assumption.
    + destruct (mem x b'), (mem y b'); try constructor;
        apply Permutation_refl.
    + eapply Permutation_trans; eassumption.
Qed.

(** ** Monotonicity in the popularity *)

Section Monotone.

Variable score : Movie -> Q.
Hypothesis title_overview_only :
  forall (m : Movie) (p : Q),
    score (with_popularity m p) - score m == (p - get (popularity m) 0) / 20.

Lemma replace_nth_error_same {A : Type} (l : list A) (i : nat) (v x : A) :
  nth_error l i = Some x -> nth_error (replace l i v) i = Some v.
Proof.
  revert i. induction l as [|y l IH]; intros [|i] H; simpl in *;
    try discriminate; auto.
Qed.

Lemma replace_nth_error_other {A : Type} (l : list A) (i j : nat) (v : A) :
  j <> i -> nth_error (replace l i v) j = nth_error l j.
Proof.
  revert i j. induction l as [|y l IH]; intros [|i] [|j] H; simpl;
    try reflexivity; try congruence.
  apply IH. congruence.
Qed.

Lemma map_monotone (movies : list Movie) (i : nat) (m : Movie) (p : Q) :
  nth_error movies i = Some m ->
  get (popularity m) 0 <= p ->
  let movies' := replace movies i (with_popularity m p) in
  exists s s' : Q,
    nth_error (map score movies) i = Some s
    /\ nth_error (map score movies') i = Some s'
    /\ s <= s'
    /\ forall (j : nat) (sj : Q),
         j <> i ->
         nth_error (map score movies) j = Some sj ->
         nth_error (map score movies') j = Some sj
         /\ s - sj <= s' - sj.
Proof.
  intros Hi Hp movies'.
  assert (Hle : score m <= score (with_popularity m p)).
  { pose proof (title_overview_only m p) as E.
    set (old := get (popularity m) 0) in *.
    assert (H : 0 <= (p - old) / 20).
    { apply Qle_shift_div_l; [reflexivity|]. lra. }
    rewrite <- E in H. lra. }
  exists (score m), (score (with_popularity m p)).
  repeat split.
  - rewrite nth_error_map, Hi. reflexivity.
  - unfold movies'. rewrite nth_error_map.
    rewrite (replace_nth_error_same _ _ _ _ Hi). reflexivity.
  - exact Hle.
  - unfold movies'. rewrite nth_error_map.
    rewrite replace_nth_error_other by assumption.
    rewrite <- nth_error_map. assumption.
  - lra.
Qed.

End Monotone.

Lemma classical_score_popularity (qw : list string) (m : Movie) (p : Q) :
  Classical.score qw (with_popularity m p) - Classical.score qw m
  == (p - get (popularity m) 0) / 20.
Proof.
  unfold Classical.score, Classical.title_matches, Classical.overview_matches,
    Classical.popularity_term. simpl. field.
Qed.

Lemma grover_score_popularity (qt : list string) (m : Movie) (p : Q) :
  Grover.total_score qt (with_popularity m p) - Grover.total_score qt m
  == (p - get (popularity m) 0) / 20.
Proof.
  unfold Grover.total_score, Grover.title_score, Grover.overview_score,
    Grover.popularity_term. simpl. field.
Qed.

(** C9: raising the popularity of the candidate at position [i], its title
    and overview and all other candidates kept, does not lower its score in
    the score vector of either ranker, leaves every other score as it was,
    and so does not lower its score relative to any other candidate. *)
Theorem score_monotone_in_popularity :
  forall (movies : list Movie) (query : string) (i : nat) (m : Movie) (p : Q),
    nth_error movies i = Some m ->
    get (popularity m) 0 <= p ->
    let movies' := replace movies i (with_popularity m p) in
    (exists s s' : Q,
        nth_error (Classical.scores movies query) i = Some s
        /\ nth_error (Classical.scores movies' query) i = Some s'
        /\ s <= s'
        /\ forall (j : nat) (sj : Q),
             j <> i ->
             nth_error (Classical.scores movies query) j = Some sj ->
             nth_error (Classical.scores movies' query) j = Some sj
             /\ s - sj <= s' - sj)
    /\ (exists s s' : Q,
        nth_error (Grover.scores movies query) i = Some s
        /\ nth_error (Grover.scores movies' query) i = Some s'
        /\ s <= s'
        /\ forall (j : nat) (sj : Q),
             j <> i ->
             nth_error (Grover.scores movies query) j = Some sj ->
             nth_error (Grover.scores movies' query) j = Some sj
             /\ s - sj <= s' - sj).
Proof.
  intros movies query i m p Hi Hp movies'. split.
  - apply (map_monotone _ (classical_score_popularity _) movies i m p Hi Hp).
  - apply (map_monotone _ (grover_score_popularity _) movies i m p Hi Hp).
Qed.

Lemma score_monotone_in_popularity_witness :
  (exists s s' : Q,
      nth_error (Classical.scores Example.candidates Example.query) 1
      = Some s
      /\ nth_error
           (Classical.scores
              (replace Example.candidates 1
                 (with_popularity Example.matrix_reloaded 100))
              Example.query) 1
         = Some s'
      /\ s <= s')
  /\ (exists s s' : Q,
      nth_error (Grover.scores Example.candidates Example.query) 1 = Some s
      /\ nth_error
           (Grover.scores
              (replace Example.candidates 1
                 (with_popularity Example.matrix_reloaded 100))
              Example.query) 1
         = Some s'
      /\ s <= s').
Proof.
  assert (Hp : get (popularity Example.matrix_reloaded) 0 <= 100).
  { unfold Qle. simpl. lia. }
  pose proof (score_monotone_in_popularity Example.candidates Example.query 1
                Example.matrix_reloaded 100 eq_refl Hp) as H.
  cbv zeta in H.
  destruct H as [[s [s' [H1 [H2 [H3 _]]]]] [t [t' [G1 [G2 [G3 _]]]]]].
  split.
  - exists s, s'. auto.
  - exists t, t'. auto.
Defined.

(** ** Lists of numbers *)

Lemma getitem_nth (l : list Q) (i : nat) :
  (i < List.length l)%nat -> getitem l i = Ok (nth i l 0).
Proof.
  intro H. unfold getitem.
  rewrite (nth_error_nth' l 0 H). reflexivity.
Qed.

Lemma setitem_replace {A : Type} (l : list A) (i : nat) (v : A) :
  (i < List.length l)%nat -> setitem l i v = Ok (replace l i v).
Proof.
  revert i. induction l as [|x l IH]; intros [|i] H; simpl in *;
    try lia; try reflexivity.
  rewrite IH by lia. reflexivity.
Qed.

Lemma replace_length {A : Type} (l : list A) (i : nat) (v : A) :
  List.length (replace l i v) = List.length l.
Proof.
  revert i. induction l as [|x l IH]; intros [|i]; simpl; auto.
Qed.

Lemma replace_nth_same (l : list Q) (i : nat) (v : Q) :
  (i < List.length l)%nat -> nth i (replace l i v) 0 = v.
Proof.
  revert i. induction l as [|x l IH]; intros [|i] H; simpl in *;
    try lia; try reflexivity.
  apply IH. lia.
Qed.

Lemma replace_sum (l : list Q) (i : nat) (v : Q) :
  (i < List.length l)%nat ->
  sum (replace l i v) == sum l - nth i l 0 + v.
Proof.
  revert i. induction l as [|x l IH]; intros [|i] H; simpl in *; try lia.
  - rewrite !sum_cons. ring.
  - rewrite !sum_cons, IH by lia. ring.
Qed.

Lemma scale_others_length (k i : nat) (f : Q) (l : list Q) :
  List.length (Grover.scale_others k i f l) = List.length l.
Proof.
  revert k. induction l as [|x l IH]; intro k; simpl; auto.
Qed.

(** Beyond the kept position every entry is scaled. *)
Lemma scale_others_sum_after (k i : nat) (f : Q) (l : list Q) :
  (i < k)%nat -> sum (Grover.scale_others k i f l) == f * sum l.
Proof.
  revert k. induction l as [|x l IH]; intros k H; simpl.
  - rewrite sum_nil. ring.
  - destruct (Nat.eqb_spec k i) as [E|E]; [lia|].
    rewrite !sum_cons, IH by lia. ring.
Qed.

Lemma scale_others_sum (k i : nat) (f : Q) (l : list Q) :
  (i < List.length l)%nat ->
  sum (Grover.scale_others k (k + i) f l)
  == nth i l 0 + f * (sum l - nth i l 0).
Proof.
  revert k i. induction l as [|x l IH]; intros k i H; simpl in *; [lia|].
  destruct i as [|i].
  - rewrite Nat.add_0_r, Nat.eqb_refl.
    rewrite !sum_cons, scale_others_sum_after by lia. ring.
  - destruct (Nat.eqb_spec k (k + S i)) as [E|E]; [lia|].
    replace (k + S i)%nat with (S k + i)%nat by lia.
    rewrite !sum_cons, IH by lia. ring.
Qed.

Lemma scale_others_nth (k i : nat) (f : Q) (l : list Q) (j : nat) :
  (j < List.length l)%nat ->
  nth j (Grover.scale_others k i f l) 0
  = if (k + j =? i)%nat then nth j l 0 else nth j l 0 * f.
Proof.
  revert k j. induction l as [|x l IH]; intros k j H; simpl in *; [lia|].
  destruct j as [|j].
  - rewrite Nat.add_0_r. reflexivity.
  - rewrite IH by lia. replace (S k + j)%nat with (k + S j)%nat by lia.
    reflexivity.
Qed.

(** ** One amplification turn *)

Lemma truediv_ok (x y : Q) : ~ y == 0 -> truediv x y = Ok (x / y).
Proof.
  intro H. unfold truediv.
  destruct (Qeq_bool y 0) eqn:E; [|reflexivity].
  apply Qeq_bool_iff in E. contradiction.
Qed.

Lemma amplify_step_ok (max_idx : nat) (v : list Q) :
  (max_idx < List.length v)%nat ->
  Grover.amplify_step max_idx v = Ok (amplified_once max_idx v).
Proof.
  intro H. unfold Grover.amplify_step, amplified_once, Grover.other_sum.
  rewrite (getitem_nth v max_idx H). simpl.
  rewrite (setitem_replace v max_idx _ H). simpl.
  set (v1 := replace v max_idx (nth max_idx v 0 * (3 # 2))).
  assert (H1 : (max_idx < List.length v1)%nat).
  { unfold v1. rewrite replace_length. assumption. }
  rewrite (getitem_nth v1 max_idx H1). simpl.
  destruct (Qltb 0 (sum v1 - nth max_idx v1 0)) eqn:E; [|reflexivity].
  apply Qltb_true in E.
  rewrite truediv_ok by lra. reflexivity.
Qed.

Lemma amplified_once_length (max_idx : nat) (v : list Q) :
  List.length (amplified_once max_idx v) = List.length v.
Proof.
  unfold amplified_once.
  destruct (Qltb _ _); rewrite ?scale_others_length, replace_length;
    reflexivity.
Qed.

(** The sum the loop body calls [other_sum] is the sum of the entries
    other than the target, as they were before the turn. *)
Lemma other_sum_before (max_idx : nat) (v : list Q) :
  (max_idx < List.length v)%nat ->
  let v1 := replace v max_idx (nth max_idx v 0 * (3 # 2)) in
  sum v1 - nth max_idx v1 0 == sum v - nth max_idx v 0.
Proof.
  intros H v1. unfold v1.
  rewrite replace_sum, replace_nth_same by assumption. ring.
Qed.

(** After a turn that rescales, the vector sums to 1. *)
Lemma amplified_once_rescaled (max_idx : nat) (v : list Q) :
  (max_idx < List.length v)%nat ->
  0 < sum v - nth max_idx v 0 ->
  sum (amplified_once max_idx v) == 1.
Proof.
  intros H Hos. unfold amplified_once.
  pose proof (other_sum_before max_idx v H) as E. cbv zeta in E.
  set (v1 := replace v max_idx (nth max_idx v 0 * (3 # 2))) in *.
  assert (H1 : (max_idx < List.length v1)%nat).
  { unfold v1. rewrite replace_length. assumption. }
  assert (Hpos : 0 < sum v1 - nth max_idx v1 0) by (rewrite E; assumption).
  apply Qltb_true in Hpos as Hb. rewrite Hb.
  pose proof (scale_others_sum 0 max_idx
                ((1 - nth max_idx v1 0) / (sum v1 - nth max_idx v1 0))
                v1 H1) as S.
  simpl in S. rewrite S. field. lra.
Qed.

(** After a turn that does not rescale, only the target has changed: the
    sum has grown by half of the target. *)
Lemma amplified_once_skipped (max_idx : nat) (v : list Q) :
  (max_idx < List.length v)%nat ->
  sum v - nth max_idx v 0 <= 0 ->
  amplified_once max_idx v = replace v max_idx (nth max_idx v 0 * (3 # 2))
  /\ sum (amplified_once max_idx v) == sum v + nth max_idx v 0 / 2.
Proof.
  intros H Hos. unfold amplified_once.
  pose proof (other_sum_before max_idx v H) as E. cbv zeta in E.
  set (v1 := replace v max_idx (nth max_idx v 0 * (3 # 2))) in *.
  assert (Hle : sum v1 - nth max_idx v1 0 <= 0) by (rewrite E; assumption).
  apply Qltb_false in Hle as Hb. rewrite Hb.
  split; [reflexivity|].
  unfold v1. rewrite replace_sum by assumption. field.
Qed.

(** ** The probability vector and its target *)

Lemma total_or_one_nonzero (scores : list Q) : ~ total_or_one scores == 0.
Proof.
  unfold total_or_one. destruct (Qeq_bool (sum scores) 0) eqn:E.
  - intro H. discriminate H.
  - apply Qeq_bool_neq. assumption.
Qed.

Lemma normalize_ok (scores : list Q) (total : Q) :
  ~ total == 0 ->
  Grover.normalize scores total = Ok (map (fun s => s / total) scores).
Proof.
  intro H. induction scores as [|s l IH]; simpl; [reflexivity|].
  rewrite truediv_ok by assumption. simpl. rewrite IH. reflexivity.
Qed.

(** The guard works: the normalisation never divides by zero. *)
Lemma probabilities_ok (scores : list Q) :
  Grover.probabilities scores
  = Ok (map (fun s => s / total_or_one scores) scores).
Proof.
  unfold Grover.probabilities. fold (total_or_one scores).
  apply normalize_ok, total_or_one_nonzero.
Qed.

Lemma fold_max_In (l : list Q) (x : Q) :
  In (fold_left (fun m y => if Qltb m y then y else m) l x) (x :: l).
Proof.
  revert x. induction l as [|y l IH]; intro x; simpl.
  - left. reflexivity.
  - destruct (Qltb x y).
    + right. apply IH.
    + destruct (IH x) as [H|H]; [left | right; right]; assumption.
Qed.

Lemma index_In (l : list Q) (v : Q) :
  In v l -> exists i : nat, index l v = Ok i /\ (i < List.length l)%nat.
Proof.
  induction l as [|x l IH]; intro H; simpl in *; [contradiction|].
  destruct (Qeq_bool x v) eqn:E.
  - exists 0%nat. split; [reflexivity | lia].
  - destruct H as [H|H].
    + subst x. rewrite (proj2 (Qeq_bool_iff v v) (Qeq_refl v)) in E.
      discriminate.
    + destruct (IH H) as [i [Hi Hlt]]. rewrite Hi. simpl.
      exists (S i). split; [reflexivity | lia].
Qed.

(** On a non-empty vector the target position exists and lies inside it. *)
Lemma max_index_ok (l : list Q) :
  l <> [] ->
  exists i : nat, Grover.max_index l = Ok i /\ (i < List.length l)%nat.
Proof.
  intro H. unfold Grover.max_index. destruct l as [|x l]; [congruence|].
  unfold max, bind.
  apply (index_In (x :: l)), fold_max_In.
Qed.

(** ** The amplification loop *)

Lemma amplify_ok (k max_idx : nat) (v : list Q) :
  (max_idx < List.length v)%nat ->
  exists w : list Q,
    Grover.amplify k max_idx v = Ok w /\ List.length w = List.length v.
Proof.
  revert v. induction k as [|k IH]; intros v H; simpl.
  - exists v. split; reflexivity.
  - rewrite (amplify_step_ok max_idx v H). simpl.
    destruct (IH (amplified_once max_idx v)) as [w [Hw Hl]].
    + rewrite amplified_once_length. assumption.
    + exists w. split; [assumption|].
      rewrite Hl. apply amplified_once_length.
Qed.

(** The vector after [k + 1] turns is one turn after the vector after [k]
    turns. *)
Lemma amplify_succ (k max_idx : nat) (v w : list Q) :
  Grover.amplify k max_idx v = Ok w ->
  Grover.amplify (S k) max_idx v = Grover.amplify_step max_idx w.
Proof.
  revert v. induction k as [|k IH]; intros v H.
  - simpl in H. injection H as <-. simpl.
    destruct (Grover.amplify_step max_idx v); reflexivity.
  - change (Grover.amplify (S k) max_idx v)
      with (bind (Grover.amplify_step max_idx v)
              (fun a => Grover.amplify k max_idx a)) in H.
    change (Grover.amplify (S (S k)) max_idx v)
      with (bind (Grover.amplify_step max_idx v)
              (fun a => Grover.amplify (S k) max_idx a)).
    destruct (Grover.amplify_step max_idx v) as [a|e]; simpl in *.
    + apply IH. assumption.
    + discriminate.
Qed.

(** The sum is not kept at 1: with the single candidate "The Matrix" the
    only turn skips the rescaling and leaves the vector [[3/2]]. *)
Lemma normalization_counterexample :
  ~ normalized_after_every_iteration [Example.the_matrix] Example.query.
Proof.
  intro H.
  specialize (H _ 0%nat 1%nat _ eq_refl eq_refl (conj (le_n 1) (le_n 1)) eq_refl).
  vm_compute in H. discriminate H.
Qed.

(** What the turns do to the sum: for a non-empty candidate list the loop
    never raises; a turn that rescales ([other_sum > 0]) ends with a vector
    that sums to 1, and a turn that skips the rescaling
    ([other_sum <= 0]) has only multiplied the target by 3/2, so that the
    sum has grown by half of the target and is 1 no more. *)
Theorem amplification_sum :
  forall (movies : list Movie) (query : string),
    movies <> [] ->
    exists (probabilities : list Q) (max_idx : nat),
      Grover.probabilities (Grover.scores movies query) = Ok probabilities
      /\ Grover.max_index probabilities = Ok max_idx
      /\ forall k : nat,
           (k < Grover.iterations (len movies))%nat ->
           exists (before amplified_probs after : list Q) (p other_sum : Q),
             Grover.amplify k max_idx probabilities = Ok before
             /\ Grover.amplify (S k) max_idx probabilities = Ok after
             /\ getitem before max_idx = Ok p
             /\ setitem before max_idx (p * (3 # 2)) = Ok amplified_probs
             /\ Grover.other_sum max_idx amplified_probs = Ok other_sum
             /\ (0 < other_sum -> sum after == 1)
             /\ (other_sum <= 0 ->
                 after = amplified_probs /\ sum after == sum before + p / 2).
Proof.
  intros movies query Hne.
  rewrite probabilities_ok.
  set (probs := map _ (Grover.scores movies query)).
  assert (Hp : probs <> []).
  { unfold probs, Grover.scores. destruct movies; [congruence | discriminate]. }
  destruct (max_index_ok probs Hp) as [max_idx [Hmax Hlt]].
  exists probs, max_idx. split; [reflexivity|]. split; [assumption|].
  intros k _.
  destruct (amplify_ok k max_idx probs Hlt) as [before [Hb Hlen]].
  assert (Hlt' : (max_idx < List.length before)%nat) by lia.
  pose proof (other_sum_before max_idx before Hlt') as Hos. cbv zeta in Hos.
  set (v1 := replace before max_idx (nth max_idx before 0 * (3 # 2))) in *.
  assert (H1 : (max_idx < List.length v1)%nat).
  { unfold v1. rewrite replace_length. assumption. }
  exists before, v1, (amplified_once max_idx before),
    (nth max_idx before 0), (sum v1 - nth max_idx v1 0).
  repeat split.
  - assumption.
  - rewrite (amplify_succ _ _ _ _ Hb). apply amplify_step_ok. assumption.
  - apply getitem_nth. assumption.
  - apply setitem_replace. assumption.
  - unfold Grover.other_sum. rewrite (getitem_nth v1 max_idx H1). reflexivity.
  - intro H. apply amplified_once_rescaled; [assumption|].
    rewrite <- Hos. assumption.
  - apply amplified_once_skipped; [assumption|]. rewrite <- Hos. assumption.
  - apply amplified_once_skipped; [assumption|]. rewrite <- Hos. assumption.
Qed.

Lemma amplification_sum_witness :
  exists (probabilities : list Q) (max_idx : nat),
    Grover.probabilities (Grover.scores Example.candidates Example.query)
    = Ok probabilities
    /\ Grover.max_index probabilities = Ok max_idx.
Proof.
  destruct (amplification_sum Example.candidates Example.query)
    as [probabilities [max_idx [H1 [H2 _]]]].
  - discriminate.
  - exists probabilities, max_idx. split; assumption.
Defined.

(** C3 (fails on the code): the loop is written to "maintain sum = 1", but
    with the single candidate "The Matrix" its one turn multiplies the
    probability 1 by 3/2, finds [other_sum = 0], skips the rescaling and
    hands the vector [[3/2]] to the sampling: after that turn the sum is
    3/2 and not 1. *)
Theorem single_candidate_not_normalized :
  exists (probabilities amplified_probs weights : list Q) (other_sum : Q),
    Grover.probabilities (Grover.scores [Example.the_matrix] Example.query)
    = Ok probabilities
    /\ Forall2 Qeq probabilities [1]
    /\ Grover.max_index probabilities = Ok 0%nat
    /\ Grover.iterations (len [Example.the_matrix]) = 1%nat
    /\ setitem probabilities 0 (nth 0 probabilities 0 * (3 # 2))
       = Ok amplified_probs
    /\ Grover.other_sum 0 amplified_probs = Ok other_sum
    /\ other_sum == 0
    /\ Qltb 0 other_sum = false
    /\ Grover.amplify_step 0 probabilities = Ok weights
    /\ weights = amplified_probs
    /\ Grover.amplify (Grover.iterations (len [Example.the_matrix])) 0
         probabilities
       = Ok weights
    /\ Grover.amplified [Example.the_matrix] Example.query = Ok (0%nat, weights)
    /\ Forall2 Qeq weights [3 # 2]
    /\ sum weights == 3 # 2
    /\ ~ sum weights == 1.
Proof.
  do 4 eexists.
  split; [vm_compute; reflexivity|].
  split; [repeat constructor; vm_compute; reflexivity|].
  do 4 (split; [vm_compute; reflexivity|]).
  split; [vm_compute; reflexivity|].
  do 5 (split; [vm_compute; reflexivity|]).
  split; [repeat constructor; vm_compute; reflexivity|].
  split; [vm_compute; reflexivity|].
  vm_compute. discriminate.
Qed.

(** ** Negative weights *)

Lemma sum_positive_entry (l : list Q) :
  0 < sum l -> exists j : nat, (j < List.length l)%nat /\ 0 < nth j l 0.
Proof.
  induction l as [|x l IH]; intro H.
  - rewrite sum_nil in H. exfalso. apply (Qlt_irrefl 0 H).
  - rewrite sum_cons in H.
    destruct (Qlt_le_dec 0 x) as [Hx|Hx].
    + exists 0%nat. simpl. split; [lia | assumption].
    + destruct IH as [j [Hj Hp]]; [lra|].
      exists (S j). simpl. split; [lia | assumption].
Qed.

Lemma other_positive_entry (l : list Q) (i : nat) :
  (i < List.length l)%nat ->
  0 < sum l - nth i l 0 ->
  exists j : nat, j <> i /\ (j < List.length l)%nat /\ 0 < nth j l 0.
Proof.
  revert i. induction l as [|x l IH]; intros i Hi H; simpl in *; [lia|].
  rewrite sum_cons in H. destruct i as [|i].
  - destruct (sum_positive_entry l) as [j [Hj Hp]]; [lra|].
    exists (S j). repeat split; [discriminate | lia | assumption].
  - destruct (Qlt_le_dec 0 x) as [Hx|Hx].
    + exists 0%nat. repeat split; [discriminate | lia | assumption].
    + destruct (IH i) as [j [Hne [Hj Hp]]]; [lia | lra |].
      exists (S j). repeat split; [congruence | lia | assumption].
Qed.

Lemma replace_nth_other (l : list Q) (i j : nat) (v : Q) :
  j <> i -> nth j (replace l i v) 0 = nth j l 0.
Proof.
  revert i j. induction l as [|x l IH]; intros [|i] [|j] H; simpl;
    try reflexivity; try congruence.
  apply IH. congruence.
Qed.

(** Whenever the target holds more than 2/3 and the turn rescales, the
    turn leaves a negative entry. *)
Lemma amplified_once_negative (max_idx : nat) (v : list Q) :
  (max_idx < List.length v)%nat ->
  2 # 3 < nth max_idx v 0 ->
  0 < sum v - nth max_idx v 0 ->
  exists j : nat,
    (j < List.length v)%nat
    /\ j <> max_idx
    /\ 0 < nth j v 0
    /\ nth j (amplified_once max_idx v) 0 < 0.
Proof.
  intros Hi Hp Hos.
  destruct (other_positive_entry v max_idx Hi Hos) as [j [Hne [Hj Hpos]]].
  exists j. split; [assumption|]. split; [assumption|].
  split; [assumption|].
  unfold amplified_once.
  pose proof (other_sum_before max_idx v Hi) as E. cbv zeta in E.
  set (v1 := replace v max_idx (nth max_idx v 0 * (3 # 2))) in *.
  assert (Hpos1 : 0 < sum v1 - nth max_idx v1 0) by (rewrite E; assumption).
  apply Qltb_true in Hpos1 as Hb. rewrite Hb.
  rewrite scale_others_nth by (unfold v1; rewrite replace_length; assumption).
  simpl. destruct (Nat.eqb_spec j max_idx) as [F|_]; [contradiction|].
  assert (Hj1 : nth j v1 0 = nth j v 0)
    by (apply replace_nth_other; assumption).
  assert (Hm1 : nth max_idx v1 0 = nth max_idx v 0 * (3 # 2))
    by (apply replace_nth_same; assumption).
  rewrite Hj1.
  assert (Hf : (1 - nth max_idx v1 0) / (sum v1 - nth max_idx v1 0) < 0).
  { apply Qlt_shift_div_r; [assumption | rewrite Hm1; lra]. }
  generalize dependent ((1 - nth max_idx v1 0) / (sum v1 - nth max_idx v1 0)).
  intros f Hf.
  assert (H : 0 < nth j v 0 * - f) by (apply Qmult_lt_0_compat; lra).
  setoid_replace (nth j v 0 * - f) with (- (nth j v 0 * f)) in H by ring.
  generalize dependent (nth j v 0 * f). intros x H. lra.
Qed.

(** C10: there is a non-empty list of candidates of the data model and a
    query on which the probabilities are all non-negative and the leading
    one exceeds 2/3, and on which the first turn of the loop lifts the
    target above 1, computes a negative rescaling factor and so turns a
    positive probability into a negative entry; the loop ends there and the
    vector with the negative entry is handed to the sampling.  The same
    happens in a turn on any vector whose target exceeds 2/3 while the
    other entries sum to more than 0: the turn makes a positive entry
    negative.  Non-negative weights are no invariant of the loop. *)
Theorem amplification_negative_weights :
  (exists (movies : list Movie) (query : string)
          (probabilities amplified_probs after weights : list Q)
          (max_idx j : nat) (p other_sum reduction_factor : Q),
      movies <> []
      /\ Forall valid_candidate movies
      /\ Grover.probabilities (Grover.scores movies query) = Ok probabilities
      /\ Forall (fun x => 0 <= x) probabilities
      /\ Grover.max_index probabilities = Ok max_idx
      /\ getitem probabilities max_idx = Ok p
      /\ 2 # 3 < p
      /\ setitem probabilities max_idx (p * (3 # 2)) = Ok amplified_probs
      /\ 1 < nth max_idx amplified_probs 0
      /\ Grover.other_sum max_idx amplified_probs = Ok other_sum
      /\ 0 < other_sum
      /\ truediv (1 - nth max_idx amplified_probs 0) other_sum
         = Ok reduction_factor
      /\ reduction_factor < 0
      /\ Grover.amplify_step max_idx probabilities = Ok after
      /\ after
         = Grover.scale_others 0 max_idx reduction_factor amplified_probs
      /\ j <> max_idx
      /\ 0 < nth j probabilities 0
      /\ nth j after 0 < 0
      /\ Grover.iterations (len movies) = 1%nat
      /\ Grover.amplify (Grover.iterations (len movies)) max_idx
           probabilities
         = Ok weights
      /\ weights = after
      /\ Grover.amplified movies query = Ok (max_idx, weights))
  /\ (forall (max_idx : nat) (v : list Q),
        (max_idx < List.length v)%nat ->
        2 # 3 < nth max_idx v 0 ->
        0 < sum v - nth max_idx v 0 ->
        exists (after : list Q) (j : nat),
          Grover.amplify_step max_idx v = Ok after
          /\ (j < List.length v)%nat
          /\ j <> max_idx
          /\ 0 < nth j v 0
          /\ nth j after 0 < 0).
Proof.
  split.
  - exists Example.dominant, Example.query.
    do 4 eexists. exists 0%nat, 1%nat. do 3 eexists.
    split; [discriminate|].
    split; [repeat constructor; vm_compute; discriminate|].
    split; [vm_compute; reflexivity|].
    split; [repeat constructor; vm_compute; discriminate|].
    do 11 (split; [vm_compute; reflexivity|]).
    split; [discriminate|].
    do 5 (split; [vm_compute; reflexivity|]).
    vm_compute. reflexivity.
  - intros max_idx v Hi Hp Hos.
    destruct (amplified_once_negative max_idx v Hi Hp Hos)
      as [j [Hj [Hne [Hpos Hneg]]]].
    exists (amplified_once max_idx v), j.
    split; [apply amplify_step_ok; assumption|].
    repeat split; assumption.
Qed.

(** ** The sampling *)

Lemma accumulate_from_length (acc : Q) (l : list Q) :
  List.length (accumulate_from acc l) = List.length l.
Proof.
  revert acc. induction l as [|x l IH]; intro acc; simpl; auto.
Qed.

(** The last running sum is the sum. *)
Lemma accumulate_from_last (acc : Q) (l : list Q) :
  l <> [] ->
  exists total : Q,
    getitem (accumulate_from acc l) (List.length l - 1) = Ok total
    /\ total == acc + sum l.
Proof.
  revert acc. induction l as [|x l IH]; intros acc H; [congruence|].
  destruct l as [|y l].
  - exists (acc + x). split; [reflexivity|]. rewrite sum_cons, sum_nil. ring.
  - destruct (IH (acc + x)) as [total [Ht Hs]]; [discriminate|].
    exists total. split.
    + simpl in *. rewrite Nat.sub_0_r in Ht. exact Ht.
    + rewrite Hs, (sum_cons x). ring.
Qed.

(** The binary search stays between its bounds. *)
Lemma bisect_loop_bounds (t : nat) (a : list Q) (x : Q) (lo hi : nat) :
  (lo <= hi)%nat ->
  (lo <= bisect_loop t a x lo hi <= hi)%nat.
Proof.
  revert lo hi. induction t as [|t IH]; intros lo hi H;
    cbn [bisect_loop]; [lia|].
  destruct (Nat.ltb_spec lo hi) as [Hlt|Hge]; [|lia].
  assert (Hmid : (lo <= (lo + hi) / 2 < hi)%nat).
  { pose proof (Nat.div_mod_eq (lo + hi) 2) as D.
    pose proof (Nat.mod_upper_bound (lo + hi) 2) as U. lia. }
  destruct (Qltb x (nth ((lo + hi) / 2) a 0)).
  - specialize (IH lo ((lo + hi) / 2)%nat). lia.
  - specialize (IH ((lo + hi) / 2 + 1)%nat hi). lia.
Qed.

(** The number of turns given to the binary search is enough: with no turn
    left the loop condition [lo < hi] is false. *)
Lemma bisect_loop_enough (t : nat) (a : list Q) (x : Q) (lo hi : nat) :
  (hi - lo <= t)%nat ->
  bisect_loop (S t) a x lo hi = bisect_loop t a x lo hi.
Proof.
  revert lo hi. induction t as [|t IH]; intros lo hi H.
  - simpl. destruct (Nat.ltb_spec lo hi); [lia | reflexivity].
  - change (bisect_loop (S (S t)) a x lo hi)
      with (if (lo <? hi)%nat
            then if Qltb x (nth ((lo + hi) / 2) a 0)
                 then bisect_loop (S t) a x lo ((lo + hi) / 2)
                 else bisect_loop (S t) a x ((lo + hi) / 2 + 1) hi
            else lo).
    change (bisect_loop (S t) a x lo hi)
      with (if (lo <? hi)%nat
            then if Qltb x (nth ((lo + hi) / 2) a 0)
                 then bisect_loop t a x lo ((lo + hi) / 2)
                 else bisect_loop t a x ((lo + hi) / 2 + 1) hi
            else lo).
    destruct (Nat.ltb_spec lo hi) as [Hlt|Hge]; [|reflexivity].
    assert (Hmid : (lo <= (lo + hi) / 2 < hi)%nat).
    { pose proof (Nat.div_mod_eq (lo + hi) 2) as D.
      pose proof (Nat.mod_upper_bound (lo + hi) 2) as U. lia. }
    destruct (Qltb x (nth ((lo + hi) / 2) a 0)); apply IH; lia.
Qed.

(** [random.choices] either refuses the weights, when their total is not
    positive, or returns a position of the population. *)
Lemma choices_outcomes (n : nat) (weights : list Q) (rs : RandomSource) :
  List.length weights = n ->
  (0 < n)%nat ->
  (sum weights <= 0 /\ choices n weights rs = Raise ValueError)
  \/ (0 < sum weights
      /\ exists i : nat, choices n weights rs = Ok i /\ (i < n)%nat).
Proof.
  intros Hlen Hn. unfold choices, accumulate, len.
  rewrite accumulate_from_length, Hlen, Nat.eqb_refl. simpl negb. cbv iota.
  destruct (accumulate_from_last 0 weights) as [total [Ht Hs]].
  { intro E. subst weights. simpl in Hlen. lia. }
  rewrite Hlen in Ht. rewrite Ht. simpl bind.
  destruct (Qle_bool total 0) eqn:E.
  - left. apply Qle_bool_iff in E. split; [lra | reflexivity].
  - right. split.
    + destruct (Qlt_le_dec 0 (sum weights)) as [H|H]; [assumption|].
      assert (L : total <= 0) by lra.
      apply Qle_bool_iff in L. congruence.
    + unfold bisect, range_getitem.
      pose proof (bisect_loop_bounds (n - 1 - 0) (accumulate_from 0 weights)
                    (choices_random rs * total) 0 (n - 1) (Nat.le_0_l _)) as B.
      set (i := bisect_loop _ _ _ _ _) in *.
      exists i. destruct (Nat.ltb_spec i n); [split; [reflexivity | lia] | lia].
Qed.

(** ** The anomaly branch *)

Lemma remove_seq (s n i : nat) :
  (s <= i < s + n)%nat ->
  exists l : list nat,
    remove (seq s n) i = Ok l
    /\ List.length l = (n - 1)%nat
    /\ forall x : nat, In x l -> (s <= x < s + n)%nat.
Proof.
  revert s. induction n as [|n IH]; intros s H; [lia|]. simpl.
  destruct (Nat.eqb_spec s i) as [E|E].
  - exists (seq (S s) n). rewrite length_seq. repeat split; try lia.
    + apply in_seq in H0. lia.
    + apply in_seq in H0. lia.
  - destruct (IH (S s)) as [l [Hl [Hn Hin]]]; [lia|].
    rewrite Hl. simpl. exists (s :: l). repeat split.
    + simpl. rewrite Hn. lia.
    + destruct H0 as [<-|H0]; [lia | apply Hin in H0; lia].
    + destruct H0 as [<-|H0]; [lia | apply Hin in H0; lia].
Qed.

Lemma choice_In (l : list nat) (rs : RandomSource) :
  l <> [] -> exists x : nat, choice l rs = Ok x /\ In x l.
Proof.
  intro H. unfold choice, getitem, len.
  destruct l as [|y l]; [congruence|].
  set (k := (choice_randbelow rs mod List.length (y :: l))%nat).
  assert (Hk : (k < List.length (y :: l))%nat).
  { apply Nat.mod_upper_bound. discriminate. }
  destruct (nth_error (y :: l) k) as [x|] eqn:E.
  - exists x. split; [reflexivity|]. eapply nth_error_In. eassumption.
  - apply nth_error_None in E. lia.
Qed.

(** The anomaly branch returns a position of the list; with one candidate
    it returns the position it was given. *)
Lemma tunnel_ok (n i : nat) (rs : RandomSource) :
  (i < n)%nat ->
  exists j : nat,
    Grover.tunnel n i rs = Ok j /\ (j < n)%nat /\ (n = 1%nat -> j = i).
Proof.
  intro H. unfold Grover.tunnel.
  destruct (Qltb (anomaly_random rs) (5 # 100)).
  - destruct (remove_seq 0 n i) as [l [Hl [Hn Hin]]]; [lia|].
    rewrite Hl. simpl bind. destruct l as [|y l'].
    + exists i. auto.
    + destruct (choice_In (y :: l') rs) as [x [Hx Hmem]]; [discriminate|].
      exists x. split; [assumption|]. split.
      * apply Hin in Hmem. lia.
      * intro E. subst n. simpl in Hn. discriminate.
  - exists i. auto.
Qed.

(** ** The outcomes of the amplified ranker *)

(** Up to the sampling nothing raises: the weights exist, one per movie. *)
Lemma amplified_ok (movies : list Movie) (query : string) :
  movies <> [] ->
  exists (max_idx : nat) (weights : list Q),
    Grover.amplified movies query = Ok (max_idx, weights)
    /\ List.length weights = List.length movies
    /\ (max_idx < List.length movies)%nat
    /\ Grover.max_index
         (map (fun s => s / total_or_one (Grover.scores movies query))
            (Grover.scores movies query))
       = Ok max_idx
    /\ Grover.amplify (Grover.iterations (len movies)) max_idx
         (map (fun s => s / total_or_one (Grover.scores movies query))
            (Grover.scores movies query))
       = Ok weights.
Proof.
  intro Hne. unfold Grover.amplified.
  rewrite probabilities_ok. simpl bind.
  set (probs := map _ (Grover.scores movies query)).
  assert (Hlen : List.length probs = List.length movies).
  { unfold probs, Grover.scores. rewrite !length_map. reflexivity. }
  assert (Hp : probs <> []).
  { intro E. rewrite E in Hlen. destruct movies; [congruence | discriminate]. }
  destruct (max_index_ok probs Hp) as [max_idx [Hmax Hlt]].
  rewrite Hmax. simpl bind.
  destruct (amplify_ok (Grover.iterations (len movies)) max_idx probs Hlt)
    as [w [Hw Hl]].
  rewrite Hw. simpl bind.
  exists max_idx, w. repeat split; try assumption; lia.
Qed.

(** The amplified ranker can end in two ways only: [random.choices] raises
    [ValueError], which it does exactly when the weights do not sum to
    more than 0, or the id of one of the candidates is returned.  In
    particular no division by zero and no index out of range occurs. *)
Lemma quantum_search_outcomes
  (movies : list Movie) (query : string) (rs : RandomSource) :
  movies <> [] ->
  exists (max_idx : nat) (weights : list Q),
    Grover.amplified movies query = Ok (max_idx, weights)
    /\ ((sum weights <= 0
         /\ Grover.quantum_search movies query rs = Raise ValueError)
        \/ (0 < sum weights
            /\ exists m : Movie,
                 In m movies
                 /\ Grover.quantum_search movies query rs = Ok (Some (id m)))).
Proof.
  intro Hne.
  destruct (amplified_ok movies query Hne)
    as [max_idx [w [Ha [Hlen [Hlt _]]]]].
  exists max_idx, w. split; [assumption|].
  unfold Grover.quantum_search. destruct movies as [|m0 rest]; [congruence|].
  rewrite Ha. cbn [bind]. cbn [snd]. unfold len.
  set (movies := m0 :: rest) in *.
  change (S (List.length rest)) with (List.length movies).
  destruct (choices_outcomes (List.length movies) w rs Hlen)
    as [[Hs Hc]|[Hs [i [Hc Hi]]]]; [simpl; lia | |].
  - left. rewrite Hc. split; [assumption | reflexivity].
  - right. split; [assumption|]. rewrite Hc. cbn [bind].
    destruct (tunnel_ok (List.length movies) i rs Hi) as [j [Hj [Hjn _]]].
    rewrite Hj. cbn [bind]. unfold getitem.
    destruct (nth_error movies j) as [m|] eqn:E.
    + exists m. split; [eapply nth_error_In; eassumption | reflexivity].
    + apply nth_error_None in E. lia.
Qed.

(** The guard against the division by zero does its work. *)
Lemma quantum_search_no_zero_division
  (movies : list Movie) (query : string) (rs : RandomSource) :
  Grover.quantum_search movies query rs <> Raise ZeroDivisionError.
Proof.
  destruct movies as [|m0 rest]; [discriminate|].
  destruct (quantum_search_outcomes (m0 :: rest) query rs)
    as [i [w [_ [[_ H]|[_ [m [_ H]]]]]]];
    [discriminate | |]; rewrite H; discriminate.
Qed.

(** ** All scores zero *)

Lemma all_zero_sum (l : list Q) : all_zero l -> sum l == 0.
Proof.
  induction 1 as [|x l Hx Hl IH].
  - reflexivity.
  - rewrite sum_cons, Hx, IH. reflexivity.
Qed.

Lemma all_zero_nth (l : list Q) (i : nat) : all_zero l -> nth i l 0 == 0.
Proof.
  intro H. revert i. induction H as [|x l Hx Hl IH]; intros [|i]; simpl;
    try reflexivity; auto.
Qed.

Lemma all_zero_replace (l : list Q) (i : nat) (v : Q) :
  all_zero l -> v == 0 -> all_zero (replace l i v).
Proof.
  intros H Hv. revert i.
  induction H as [|x l Hx Hl IH]; intros [|i]; simpl.
  - constructor.
  - constructor.
  - constructor; assumption.
  - constructor; [assumption | apply IH].
Qed.

(** A vector of zeros is left as it is, up to [==], by every turn. *)
Lemma all_zero_amplified_once (max_idx : nat) (v : list Q) :
  (max_idx < List.length v)%nat ->
  all_zero v -> all_zero (amplified_once max_idx v).
Proof.
  intros Hi Hz.
  assert (Hos : sum v - nth max_idx v 0 <= 0).
  { rewrite (all_zero_sum v Hz), (all_zero_nth v max_idx Hz). lra. }
  destruct (amplified_once_skipped max_idx v Hi Hos) as [-> _].
  apply all_zero_replace; [assumption|].
  rewrite (all_zero_nth v max_idx Hz). reflexivity.
Qed.

Lemma all_zero_amplify (k max_idx : nat) (v w : list Q) :
  (max_idx < List.length v)%nat ->
  all_zero v ->
  Grover.amplify k max_idx v = Ok w ->
  all_zero w.
Proof.
  revert v. induction k as [|k IH]; intros v Hi Hz H; simpl in H.
  - injection H as <-. assumption.
  - rewrite (amplify_step_ok max_idx v Hi) in H. simpl in H.
    apply (IH (amplified_once max_idx v)).
    + rewrite amplified_once_length. assumption.
    + apply all_zero_amplified_once; assumption.
    + assumption.
Qed.

(** With all scores zero the weights are all zero and [random.choices]
    raises, whatever the random draws. *)
Lemma zero_scores_raise
  (movies : list Movie) (query : string) (rs : RandomSource) :
  movies <> [] ->
  all_zero (Grover.scores movies query) ->
  Grover.quantum_search movies query rs = Raise ValueError.
Proof.
  intros Hne Hz.
  destruct (amplified_ok movies query Hne)
    as [max_idx [w [Ha [Hlen [Hlt [Hmax Hamp]]]]]].
  destruct (quantum_search_outcomes movies query rs Hne)
    as [i' [w' [Ha' [[_ H]|[Hs _]]]]]; [assumption|].
  rewrite Ha in Ha'. injection Ha' as <- <-.
  exfalso.
  assert (Hw : all_zero w).
  { eapply all_zero_amplify; [| |exact Hamp].
    - rewrite length_map. unfold Grover.scores. rewrite length_map. assumption.
    - unfold all_zero in *. rewrite Forall_map.
      eapply Forall_impl; [|exact Hz].
      intros x Hx. simpl. rewrite Hx. reflexivity. }
  rewrite (all_zero_sum w Hw) in Hs. apply (Qlt_irrefl 0 Hs).
Qed.

(** ** The zero-score guard *)

(** C1 (fails on the code): on two candidates without any overlap with the
    query and without popularity the scores are zero and the division by
    [total] is guarded, but the amplified ranker raises [ValueError], for
    all random draws, where the claim has it return one of the ids. *)
Theorem zero_score_guard_raises :
  forall rs : RandomSource,
    Forall2 Qeq (Grover.scores [Example.unknown; Example.stalker] Example.query)
      [0; 0]
    /\ (exists probabilities : list Q,
          Grover.probabilities
            (Grover.scores [Example.unknown; Example.stalker] Example.query)
          = Ok probabilities
          /\ Forall2 Qeq probabilities [0; 0])
    /\ Grover.quantum_search [Example.unknown; Example.stalker] Example.query rs
       = Raise ValueError.
Proof.
  intro rs. split; [|split].
  - repeat constructor; reflexivity.
  - eexists. split; [reflexivity|]. repeat constructor; reflexivity.
  - apply zero_scores_raise; [discriminate|].
    repeat constructor; reflexivity.
Qed.

(** ** A single candidate *)

Lemma single_candidate_classical (m : Movie) (query : string) :
  Classical.classical_search [m] query = Ok (Some (id m)).
Proof.
  unfold Classical.classical_search. simpl fold_left.
  unfold Classical.step. simpl snd.
  destruct (Qltb (-1) _); reflexivity.
Qed.

(** With one candidate whose score is not zero the amplified ranker returns
    its id whatever the draws: the sampling has one position to return and
    the anomaly branch has no other position to move to. *)
Lemma single_candidate_quantum
  (m : Movie) (query : string) (rs : RandomSource) :
  ~ Grover.total_score (Grover.query_terms query) m == 0 ->
  Grover.quantum_search [m] query rs = Ok (Some (id m)).
Proof.
  intro Hs.
  assert (Hne : [m] <> []) by discriminate.
  destruct (amplified_ok [m] query Hne)
    as [max_idx [w [Ha [Hlen [Hlt [Hmax Hamp]]]]]].
  destruct (quantum_search_outcomes [m] query rs Hne)
    as [i' [w' [Ha' [[Hle _]|[_ [m' [[<-|[]] H]]]]]]]; [|assumption].
  rewrite Ha in Ha'. injection Ha' as <- <-.
  exfalso.
  simpl in Hlt. assert (max_idx = 0%nat) by lia. subst max_idx.
  set (s := Grover.total_score (Grover.query_terms query) m) in *.
  change (Grover.scores [m] query) with [s] in Hamp.
  change (Grover.iterations (len [m])) with 1%nat in Hamp.
  simpl map in Hamp. simpl Grover.amplify in Hamp.
  rewrite amplify_step_ok in Hamp by (simpl; lia).
  simpl bind in Hamp. injection Hamp as <-.
  set (p := s / total_or_one [s]) in *.
  assert (Hp : p == 1).
  { unfold p, total_or_one.
    assert (E : sum [s] == s) by (rewrite sum_cons, sum_nil; ring).
    destruct (Qeq_bool (sum [s]) 0) eqn:B.
    - apply Qeq_bool_iff in B. rewrite E in B. contradiction.
    - rewrite E. field. assumption. }
  assert (Hsum : sum [p] == p) by (rewrite sum_cons, sum_nil; ring).
  destruct (amplified_once_skipped 0 [p]) as [_ E].
  - simpl. lia.
  - simpl nth. rewrite Hsum. lra.
  - rewrite E in Hle. simpl nth in Hle. rewrite Hsum, Hp in Hle.
    revert Hle. apply Qlt_not_le. reflexivity.
Qed.

(** C4 (fails on the code): with the single candidate "Solaris", whose
    score for the query is zero, the heuristic ranker returns its id, and
    the amplified ranker raises [ValueError] for all random draws, where
    the claim has it return the id. *)
Theorem single_candidate_zero_score_raises :
  forall rs : RandomSource,
    Classical.classical_search [Example.unknown] Example.query = Ok (Some 4%Z)
    /\ Grover.quantum_search [Example.unknown] Example.query rs
       = Raise ValueError.
Proof.
  intro rs. split.
  - reflexivity.
  - apply zero_scores_raise; [discriminate|].
    repeat constructor; reflexivity.
Qed.

(** ** The two scorers compared *)

(** C2 fails as stated: for "The Matrix" the query "mat" matches no word of
    the title but is a substring of it (scores 4 and 7), and the query
    "matrix matrix" is one word for the heuristic ranker and two terms for
    the amplified one (scores 7 and 10). *)
Lemma shared_scorer_counterexample :
  ~ shared_scorer [Example.the_matrix] "mat"
  /\ ~ shared_scorer [Example.the_matrix] "matrix matrix".
Proof.
  split; intro H; inversion H as [|a b la lb Hab Hrest]; subst;
    vm_compute in Hab; discriminate Hab.
Qed.

Lemma prefix_nil (s : string) : String.prefix EmptyString s = true.
Proof. destruct s; reflexivity. Qed.

Lemma prefix_cons (c : ascii) (w s : string) :
  String.prefix (String c w) (String c s) = String.prefix w s.
Proof.
  simpl. destruct (ascii_dec c c) as [_|N]; [reflexivity | congruence].
Qed.

Lemma contains_prefix (s t : string) :
  String.prefix t s = true -> contains s t = true.
Proof.
  intro H. destruct s; cbn [contains]; rewrite H; reflexivity.
Qed.

Lemma contains_tail (c : ascii) (s t : string) :
  contains s t = true -> contains (String c s) t = true.
Proof.
  intro H. cbn [contains]. rewrite H. apply orb_true_r.
Qed.

(** Every word of [s.split()] occurs in [s]; the first word starts [s] when
    [s] does not start with white space. *)
Lemma split_words (s : string) :
  (forall t : string, In t (split s) -> contains s t = true)
  /\ (forall (c : ascii) (s' w : string) (ws : list string),
        s = String c s' -> is_space c = false -> split s = w :: ws ->
        String.prefix w s = true).
Proof.
  induction s as [|c s' [IHin IHhead]].
  - split; [intros t [] | intros c s' w ws H; discriminate H].
  - assert (Hhead : forall (w : string) (ws : list string),
               is_space c = false -> split (String c s') = w :: ws ->
               String.prefix w (String c s') = true
               /\ forall t : string, In t ws -> contains s' t = true).
    { intros w ws Hc Hs. cbn [split] in Hs. rewrite Hc in Hs.
      destruct s' as [|c' s''].
      - injection Hs as <- <-. split; [|intros t []].
        rewrite prefix_cons. reflexivity.
      - destruct (is_space c') eqn:Hc'.
        + injection Hs as <- <-. split; [|exact IHin].
          rewrite prefix_cons. apply prefix_nil.
        + destruct (split (String c' s'')) as [|w' ws'] eqn:Hs'.
          * injection Hs as <- <-. split; [|intros t []].
            rewrite prefix_cons. apply prefix_nil.
          * injection Hs as <- <-. split.
            -- rewrite prefix_cons.
               apply (IHhead c' s'' w' ws' eq_refl Hc' eq_refl).
            -- intros t Ht. apply IHin. right. assumption. }
    split.
    + intros t Ht. destruct (is_space c) eqn:Hc.
      * cbn [split] in Ht. rewrite Hc in Ht.
        apply contains_tail, IHin. assumption.
      * destruct (split (String c s')) as [|w ws] eqn:Hs; [destruct Ht|].
        destruct (Hhead w ws eq_refl eq_refl) as [Hp Hws].
        destruct Ht as [<-|Ht].
        -- apply contains_prefix. assumption.
        -- apply contains_tail, Hws. assumption.
    + intros c0 s0 w ws E Hc Hs. injection E as <- <-.
      apply (Hhead w ws Hc Hs).
Qed.

Lemma split_contains (s t : string) :
  In t (split s) -> contains s t = true.
Proof. apply split_words. Qed.

Lemma filter_nodup_length (P : string -> bool) (l : list string) :
  (List.length (filter P (nodup string_dec l))
   <= List.length (filter P l))%nat.
Proof.
  induction l as [|x l IH]; simpl; [lia|].
  destruct (in_dec string_dec x l); simpl; destruct (P x); simpl; lia.
Qed.

Lemma filter_weaken_length (P P' : string -> bool) (l : list string) :
  (forall x : string, In x l -> P x = true -> P' x = true) ->
  (List.length (filter P l) <= List.length (filter P' l))%nat.
Proof.
  induction l as [|x l IH]; intro H; simpl; [lia|].
  assert (IH' : (List.length (filter P l) <= List.length (filter P' l))%nat).
  { apply IH. intros y Hy. apply H. right. assumption. }
  destruct (P x) eqn:E.
  - rewrite (H x (or_introl eq_refl) E). simpl. lia.
  - destruct (P' x); simpl; lia.
Qed.

Lemma filter_agree_length (P P' : string -> bool) (l : list string) :
  (forall x : string, In x l -> P x = P' x) ->
  List.length (filter P l) = List.length (filter P' l).
Proof.
  intro H. f_equal. induction l as [|x l IH]; simpl; [reflexivity|].
  rewrite (H x (or_introl eq_refl)), IH; [reflexivity|].
  intros y Hy. apply H. right. assumption.
Qed.

Lemma mem_set (w : string) (l : list string) :
  mem w (set l) = true <-> In w l.
Proof.
  rewrite mem_In. unfold set. apply nodup_In.
Qed.

Lemma count_terms_length (w : nat) (terms : list string) (text : string) :
  Grover.count_terms w terms text
  = (w * List.length (filter (fun term => contains text term) terms))%nat.
Proof.
  unfold Grover.count_terms.
  induction (filter (fun term => contains text term) terms) as [|x l IH];
    simpl; [lia|].
  rewrite IH. lia.
Qed.

(** The number of distinct query words among the words of [text] is at most
    the number of query terms that occur in [text]. *)
Lemma words_le_terms (query text : string) :
  (len (intersection (Classical.query_words query) (set (split text)))
   <= List.length (filter (fun term => contains text term)
                     (Grover.query_terms query)))%nat.
Proof.
  unfold len, intersection, Classical.query_words, Grover.query_terms, set.
  etransitivity; [apply filter_nodup_length|].
  apply filter_weaken_length.
  intros x _ H. apply mem_set in H. apply split_contains. assumption.
Qed.

Lemma words_eq_terms (query text : string) :
  NoDup (Grover.query_terms query) ->
  whole_words query text ->
  len (intersection (Classical.query_words query) (set (split text)))
  = List.length (filter (fun term => contains text term)
                   (Grover.query_terms query)).
Proof.
  intros Hnd Hw.
  unfold len, intersection, Classical.query_words, set.
  fold (Grover.query_terms query).
  rewrite (nodup_fixed_point string_dec Hnd).
  apply filter_agree_length. intros x Hx.
  apply eq_true_iff_eq. rewrite mem_set. split.
  - apply split_contains.
  - apply Hw. assumption.
Qed.

Lemma score_le_total_score (query : string) (m : Movie) :
  Classical.score (Classical.query_words query) m
  <= Grover.total_score (Grover.query_terms query) m.
Proof.
  unfold Classical.score, Grover.total_score,
    Classical.popularity_term, Grover.popularity_term.
  assert (Ht : of_nat (Classical.title_matches (Classical.query_words query) m)
               <= of_nat (Grover.title_score (Grover.query_terms query) m)).
  { apply of_nat_le.
    unfold Classical.title_matches, Grover.title_score.
    rewrite count_terms_length.
    pose proof (words_le_terms query (lower (get (title m) ""))). lia. }
  assert (Ho : of_nat (Classical.overview_matches (Classical.query_words query) m)
               <= of_nat (Grover.overview_score (Grover.query_terms query) m)).
  { apply of_nat_le.
    unfold Classical.overview_matches, Grover.overview_score.
    rewrite count_terms_length.
    pose proof (words_le_terms query (lower (get (overview m) ""))). lia. }
  lra.
Qed.

Lemma score_eq_total_score (query : string) (m : Movie) :
  NoDup (Grover.query_terms query) ->
  whole_words query (lower (get (title m) "")) ->
  whole_words query (lower (get (overview m) "")) ->
  Classical.score (Classical.query_words query) m
  == Grover.total_score (Grover.query_terms query) m.
Proof.
  intros Hnd Ht Ho.
  unfold Classical.score, Grover.total_score,
    Classical.popularity_term, Grover.popularity_term,
    Classical.title_matches, Grover.title_score,
    Classical.overview_matches, Grover.overview_score.
  rewrite !count_terms_length.
  rewrite (words_eq_terms query _ Hnd Ht), (words_eq_terms query _ Hnd Ho).
  rewrite Nat.mul_comm, Nat.mul_1_l. reflexivity.
Qed.

(** C2, amended: the two rankers score with the same weights and the same
    popularity term, but the heuristic ranker counts the distinct query
    words that are words of the text and the amplified ranker counts every
    query term that is a substring of the text.  So the two score vectors
    have one entry per candidate, each heuristic score is at most the
    amplified score at the same position, and the vectors are equal when
    the query has no repeated term and no title or overview holds a query
    term other than as a whole word. *)
Theorem scorers_compared :
  forall (movies : list Movie) (query : string),
    List.length (Classical.scores movies query) = List.length movies
    /\ List.length (Grover.scores movies query) = List.length movies
    /\ (forall m : Movie,
          Classical.popularity_term m = Grover.popularity_term m)
    /\ Forall2 Qle (Classical.scores movies query) (Grover.scores movies query)
    /\ (NoDup (Grover.query_terms query) ->
        (forall m : Movie,
            In m movies ->
            whole_words query (lower (get (title m) ""))
            /\ whole_words query (lower (get (overview m) ""))) ->
        Forall2 Qeq (Classical.scores movies query)
          (Grover.scores movies query)).
Proof.
  intros movies query. unfold Classical.scores, Grover.scores.
  rewrite !length_map. repeat split.
  - induction movies as [|m l IH]; simpl; constructor;
      [apply score_le_total_score | assumption].
  - intros Hnd Hw. induction movies as [|m l IH]; simpl; constructor.
    + destruct (Hw m (or_introl eq_refl)) as [Ht Ho].
      apply score_eq_total_score; assumption.
    + apply IH. intros m' Hm'. apply Hw. right. assumption.
Qed.

Lemma scorers_compared_witness :
  Forall2 Qeq (Classical.scores Example.candidates Example.query)
    (Grover.scores Example.candidates Example.query).
Proof.
  destruct (scorers_compared Example.candidates Example.query)
    as [_ [_ [_ [_ H]]]].
  apply H.
  - repeat constructor; simpl; intuition discriminate.
  - intros m [<-|[<-|[]]]; split; intros term [<-|[<-|[]]] Hc;
      vm_compute in Hc; try discriminate Hc; vm_compute; tauto.
Defined.

(** ** Remarks *)

(** Outside the data model the loop of the heuristic ranker can end with no
    [best_match]: scores that do not exceed the initial [-1] never replace
    it, and the first candidate is returned. *)
Remark negative_popularity_falls_back :
  Classical.classical_search
    [mkMovie 1 (Some "Solaris") None (Some (-100));
     mkMovie 2 (Some "Stalker") None (Some (-40))]
    Example.query
  = Ok (Some 1%Z).
Proof. reflexivity. Qed.

(** The amplified ranker is not a function of its two arguments alone: the
    draws decide between the candidates. *)
Remark quantum_search_depends_on_draws :
  Grover.quantum_search Example.candidates Example.query
    (mkRandom (1 # 2) (1 # 2) 0)
  = Ok (Some 1%Z)
  /\ Grover.quantum_search Example.candidates Example.query
       (mkRandom (1 # 2) (1 # 100) 0)
     = Ok (Some 2%Z).
Proof. split; reflexivity. Qed.

(** * More properties of the rankers *)

(** ** The target of the amplification *)

Lemma fold_max_ge (l : list Q) (x : Q) :
  x <= fold_left (fun m y => if Qltb m y then y else m) l x
  /\ forall y : Q,
       In y l -> y <= fold_left (fun m y => if Qltb m y then y else m) l x.
Proof.
  revert x. induction l as [|y l IH]; intro x; simpl.
  - split; [apply Qle_refl | intros y []].
  - destruct (Qltb x y) eqn:E.
    + apply Qltb_true in E. destruct (IH y) as [H1 H2]. split.
      * apply Qle_trans with y; [apply Qlt_le_weak|]; assumption.
      * intros z [<-|Hz]; [assumption | apply H2; assumption].
    + apply Qltb_false in E. destruct (IH x) as [H1 H2]. split.
      * assumption.
      * intros z [<-|Hz]; [|apply H2; assumption].
        apply Qle_trans with x; assumption.
Qed.

Lemma index_first (l : list Q) (v : Q) (i : nat) :
  index l v = Ok i ->
  (i < List.length l)%nat
  /\ nth i l 0 == v
  /\ forall j : nat, (j < i)%nat -> ~ nth j l 0 == v.
Proof.
  revert i. induction l as [|x l IH]; intros i H; simpl in H; [discriminate|].
  destruct (Qeq_bool x v) eqn:E.
  - injection H as <-. simpl. repeat split.
    + lia.
    + apply Qeq_bool_iff. assumption.
    + intros j Hj. lia.
  - destruct (index l v) as [k|e] eqn:Hk; simpl in H; [|discriminate].
    injection H as <-. destruct (IH k eq_refl) as [H1 [H2 H3]].
    simpl. repeat split.
    + lia.
    + assumption.
    + intros [|j] Hj.
      * apply Qeq_bool_neq. assumption.
      * apply H3. lia.
Qed.

Lemma max_index_spec (l : list Q) (i : nat) :
  Grover.max_index l = Ok i ->
  (i < List.length l)%nat
  /\ (forall j : nat, (j < List.length l)%nat -> nth j l 0 <= nth i l 0)
  /\ (forall j : nat, (j < i)%nat -> nth j l 0 < nth i l 0).
Proof.
  unfold Grover.max_index, max. destruct l as [|x l]; [discriminate|].
  unfold bind. set (m := fold_left _ l x). intro H.
  destruct (index_first (x :: l) m i H) as [H1 [H2 H3]].
  assert (Hmax : forall j : nat,
             (j < List.length (x :: l))%nat -> nth j (x :: l) 0 <= m).
  { intros j Hj. destruct (fold_max_ge l x) as [G1 G2]. fold m in G1, G2.
    destruct j as [|j]; simpl; [assumption|].
    apply G2, nth_In. simpl in Hj. lia. }
  repeat split.
  - assumption.
  - intros j Hj. rewrite H2. apply Hmax. assumption.
  - intros j Hj. rewrite H2.
    assert (Hle : nth j (x :: l) 0 <= m) by (apply Hmax; lia).
    apply Qle_lteq in Hle as [Hlt|Heq]; [exact Hlt|].
    exfalso. apply (H3 j Hj). exact Heq.
Qed.

(** X1: on a non-empty vector [probabilities.index(max(probabilities))]
    succeeds, and its result is the first position of the greatest entry:
    no entry is greater, and every earlier entry is strictly smaller. *)
Theorem max_index_first_maximum :
  forall l : list Q,
    l <> [] ->
    exists i : nat,
      Grover.max_index l = Ok i
      /\ (i < List.length l)%nat
      /\ (forall j : nat, (j < List.length l)%nat -> nth j l 0 <= nth i l 0)
      /\ (forall j : nat, (j < i)%nat -> nth j l 0 < nth i l 0).
Proof.
  intros l Hne. destruct (max_index_ok l Hne) as [i [Hi _]].
  exists i. split; [assumption|]. apply max_index_spec. assumption.
Qed.

Lemma max_index_first_maximum_witness :
  exists i : nat,
    Grover.max_index [1 # 4; 1 # 2; 2 # 4] = Ok i
    /\ (forall j : nat, (j < i)%nat -> nth j [1 # 4; 1 # 2; 2 # 4] 0
                                      < nth i [1 # 4; 1 # 2; 2 # 4] 0).
Proof.
  destruct (max_index_first_maximum [1 # 4; 1 # 2; 2 # 4])
    as [i [H1 [_ [_ H2]]]].
  - discriminate.
  - exists i. split; assumption.
Defined.

(** ** The normalisation *)

Lemma sum_map_div (l : list Q) (t : Q) :
  sum (map (fun s => s / t) l) == sum l / t.
Proof.
  induction l as [|x l IH]; simpl.
  - rewrite !sum_nil. unfold Qdiv. ring.
  - rewrite !sum_cons, IH. unfold Qdiv. ring.
Qed.

Lemma probabilities_sum (scores : list Q) :
  ~ sum scores == 0 ->
  sum (map (fun s => s / total_or_one scores) scores) == 1.
Proof.
  intro H. rewrite sum_map_div. unfold total_or_one.
  destruct (Qeq_bool (sum scores) 0) eqn:E.
  - apply Qeq_bool_iff in E. contradiction.
  - field. assumption.
Qed.

(** X2: the normalisation never raises and keeps the length; when the scores
    do not sum to zero each probability is its score divided by the sum and
    the probabilities sum to 1; when they sum to zero the divisor is 1 and
    the probabilities are the scores. *)
Theorem probabilities_normalized :
  forall scores : list Q,
    exists probabilities : list Q,
      Grover.probabilities scores = Ok probabilities
      /\ List.length probabilities = List.length scores
      /\ (~ sum scores == 0 ->
          sum probabilities == 1
          /\ forall i : nat,
               (i < List.length scores)%nat ->
               nth i probabilities 0 == nth i scores 0 / sum scores)
      /\ (sum scores == 0 -> Forall2 Qeq probabilities scores).
Proof.
  intro scores. rewrite probabilities_ok. eexists. split; [reflexivity|].
  split; [apply length_map|]. split.
  - intro H. split; [apply probabilities_sum; assumption|].
    intros i Hi.
    assert (E : total_or_one scores = sum scores).
    { unfold total_or_one. destruct (Qeq_bool (sum scores) 0) eqn:B;
        [|reflexivity].
      apply Qeq_bool_iff in B. contradiction. }
    rewrite E.
    rewrite (nth_indep _ 0 (0 / sum scores)) by (rewrite length_map; exact Hi).
    rewrite (map_nth (fun s => s / sum scores)). reflexivity.
  - intro H.
    assert (E : total_or_one scores = 1).
    { unfold total_or_one. apply Qeq_bool_iff in H. rewrite H. reflexivity. }
    rewrite E. clear. induction scores as [|s l IH]; simpl; constructor.
    + field.
    + assumption.
Qed.

Lemma probabilities_normalized_witness :
  exists probabilities : list Q,
    Grover.probabilities [6; 2] = Ok probabilities
    /\ sum probabilities == 1.
Proof.
  destruct (probabilities_normalized [6; 2]) as [p [H1 [_ [H2 _]]]].
  exists p. split; [assumption|]. apply H2. intro E. discriminate E.
Defined.

(** ** The weight of the target *)

Lemma amplified_once_target (max_idx : nat) (v : list Q) :
  (max_idx < List.length v)%nat ->
  nth max_idx (amplified_once max_idx v) 0 = nth max_idx v 0 * (3 # 2).
Proof.
  intro H. unfold amplified_once.
  set (v1 := replace v max_idx (nth max_idx v 0 * (3 # 2))).
  assert (H1 : nth max_idx v1 0 = nth max_idx v 0 * (3 # 2))
    by (apply replace_nth_same; assumption).
  destruct (Qltb 0 (sum v1 - nth max_idx v1 0)); [|assumption].
  rewrite scale_others_nth
    by (unfold v1; rewrite replace_length; assumption).
  simpl. rewrite Nat.eqb_refl. assumption.
Qed.

Lemma amplify_target (k max_idx : nat) (v w : list Q) :
  (max_idx < List.length v)%nat ->
  Grover.amplify k max_idx v = Ok w ->
  nth max_idx w 0 == nth max_idx v 0 * power (3 # 2) k.
Proof.
  revert v. induction k as [|k IH]; intros v Hi H.
  - simpl in H. injection H as <-. simpl. ring.
  - cbn [Grover.amplify] in H.
    rewrite (amplify_step_ok max_idx v Hi) in H. cbn [bind] in H.
    rewrite (IH (amplified_once max_idx v)); try assumption.
    + rewrite amplified_once_target by assumption.
      cbn [power]. ring.
    + rewrite amplified_once_length. assumption.
Qed.

Lemma amplified_nonempty
  (movies : list Movie) (query : string) (max_idx : nat) (weights : list Q) :
  Grover.amplified movies query = Ok (max_idx, weights) -> movies <> [].
Proof.
  intros H E. subst movies. discriminate H.
Qed.

(** X3: the loop multiplies the entry of the target by 3/2 in each of its
    turns and nothing else changes that entry, so the weight of the target
    handed to the sampling is its probability times (3/2) to the number of
    iterations; nothing keeps it below 1. *)
Theorem target_weight_growth :
  forall (movies : list Movie) (query : string)
         (max_idx : nat) (weights : list Q),
    Grover.amplified movies query = Ok (max_idx, weights) ->
    exists probabilities : list Q,
      Grover.probabilities (Grover.scores movies query) = Ok probabilities
      /\ Grover.max_index probabilities = Ok max_idx
      /\ nth max_idx weights 0
         == nth max_idx probabilities 0
            * power (3 # 2) (Grover.iterations (len movies)).
Proof.
  intros movies query max_idx weights H.
  pose proof (amplified_nonempty movies query max_idx weights H) as Hne.
  destruct (amplified_ok movies query Hne)
    as [i [w [Ha [Hlen [Hlt [Hmax Hamp]]]]]].
  rewrite H in Ha. injection Ha as <- <-.
  rewrite probabilities_ok. eexists. split; [reflexivity|].
  split; [assumption|].
  apply amplify_target; [|assumption].
  unfold Grover.scores. rewrite !length_map. assumption.
Qed.

Lemma target_weight_growth_witness :
  exists (max_idx : nat) (weights probabilities : list Q),
    Grover.amplified Example.dominant Example.query = Ok (max_idx, weights)
    /\ Grover.probabilities (Grover.scores Example.dominant Example.query)
       = Ok probabilities
    /\ nth max_idx weights 0
       == nth max_idx probabilities 0
          * power (3 # 2) (Grover.iterations (len Example.dominant)).
Proof.
  assert (E : exists (max_idx : nat) (weights : list Q),
             Grover.amplified Example.dominant Example.query
             = Ok (max_idx, weights)).
  { vm_compute. eexists. eexists. reflexivity. }
  destruct E as [max_idx [weights E]].
  destruct (target_weight_growth Example.dominant Example.query
              max_idx weights E)
    as [p [H1 [_ H2]]].
  exists max_idx, weights, p.
  split; [exact E|]. split; [exact H1 | exact H2].
Defined.

(** ** When the amplified ranker succeeds *)











(** ** The anomaly branch, again *)

Lemma remove_seq_excludes (s n i : nat) (l : list nat) :
  remove (seq s n) i = Ok l -> ~ In i l.
Proof.
  revert s l. induction n as [|n IH]; intros s l H; simpl in H;
    [discriminate|].
  destruct (Nat.eqb_spec s i) as [E|E].
  - injection H as <-. intro Hin. apply in_seq in Hin. lia.
  - destruct (remove (seq (S s) n) i) as [r|e] eqn:Hr; simpl in H;
      [|discriminate].
    injection H as <-. intros [F|F]; [contradiction|].
    apply (IH (S s) r Hr F).
Qed.

(** X7: the anomaly branch always returns a position of the list.  When the
    anomaly is drawn (below 0.05) and there are two candidates or more it
    returns a position other than the sampled one; when it is not drawn, or
    there is one candidate only, it returns the sampled position. *)
Theorem tunnel_moves_away :
  forall (n i : nat) (rs : RandomSource),
    (i < n)%nat ->
    exists j : nat,
      Grover.tunnel n i rs = Ok j
      /\ (j < n)%nat
      /\ (anomaly_random rs < 5 # 100 -> (2 <= n)%nat -> j <> i)
      /\ (5 # 100 <= anomaly_random rs -> j = i)
      /\ (n = 1%nat -> j = i).
Proof.
  intros n i rs Hi. unfold Grover.tunnel.
  destruct (Qltb (anomaly_random rs) (5 # 100)) eqn:A.
  - apply Qltb_true in A.
    destruct (remove_seq 0 n i) as [l [Hl [Hn Hin]]]; [lia|].
    pose proof (remove_seq_excludes 0 n i l Hl) as Hex.
    rewrite Hl. cbn [bind]. destruct l as [|y l'].
    + exists i. split; [reflexivity|]. split; [assumption|].
      split; [|split; reflexivity].
      intros _ H2. simpl in Hn. lia.
    + destruct (choice_In (y :: l') rs) as [x [Hx Hmem]]; [discriminate|].
      exists x. split; [assumption|]. split; [|split; [|split]].
      * apply Hin in Hmem. lia.
      * intros _ _ E. subst x. contradiction.
      * intro B. exfalso. apply (Qlt_not_le _ _ A B).
      * intro E. subst n. simpl in Hn. discriminate.
  - apply Qltb_false in A. exists i.
    split; [reflexivity|]. split; [assumption|].
    split; [|split; reflexivity].
    intros B _. exfalso. apply (Qlt_not_le _ _ B A).
Qed.

Lemma tunnel_moves_away_witness :
  exists j : nat,
    Grover.tunnel 3 1 (mkRandom 0 (1 # 100) 5) = Ok j /\ j <> 1%nat.
Proof.
  destruct (tunnel_moves_away 3 1 (mkRandom 0 (1 # 100) 5))
    as [j [H1 [_ [H2 _]]]].
  - lia.
  - exists j. split; [assumption|]. apply H2; [reflexivity | lia].
Defined.

(** ** More on the heuristic ranker *)

Lemma fold_best_In (qw : list string) (l : list Movie) (st : Classical.state) :
  match fst (fold_left (Classical.step qw) l st) with
  | Some m => In m l \/ fst st = Some m
  | None => fst st = None
  end.
Proof.
  revert st. induction l as [|x l IH]; intro st; simpl.
  - destruct (fst st); [right|]; reflexivity.
  - specialize (IH (Classical.step qw st x)).
    destruct (fst (fold_left (Classical.step qw) l (Classical.step qw st x)))
      as [m|].
    + destruct IH as [H|H]; [left; right; assumption|].
      unfold Classical.step in H.
      destruct (Qltb (snd st) (Classical.score qw x)); simpl in H.
      * injection H as <-. left. left. reflexivity.
      * right. assumption.
    + unfold Classical.step in IH.
      destruct (Qltb (snd st) (Classical.score qw x)); simpl in IH;
        [discriminate | assumption].
Qed.

Lemma classical_candidate (movies : list Movie) (query : string) :
  movies <> [] ->
  exists m : Movie,
    In m movies
    /\ Classical.classical_search movies query = Ok (Some (id m)).
Proof.
  intro Hne. unfold Classical.classical_search.
  destruct movies as [|first rest]; [congruence|].
  pose proof (fold_best_In (Classical.query_words query) (first :: rest)
                (None, -1)) as H.
  destruct (fst (fold_left (Classical.step (Classical.query_words query))
                   (first :: rest) (None, -1))) as [m|].
  - destruct H as [H|H]; [|discriminate H].
    exists m. split; [assumption | reflexivity].
  - exists first. split; [left|]; reflexivity.
Qed.

Lemma same_words_intersection (a a' b : list string) :
  (forall w : string, In w a <-> In w a') ->
  len (intersection (set a) b) = len (intersection (set a') b).
Proof.
  intro H. apply intersection_order_irrelevant; [|apply Permutation_refl].
  unfold set. apply NoDup_Permutation; try apply NoDup_nodup.
  intro w. rewrite !nodup_In. apply H.
Qed.

Lemma same_words_score (query1 query2 : string) (m : Movie) :
  (forall w : string,
      In w (split (lower query1)) <-> In w (split (lower query2))) ->
  Classical.score (Classical.query_words query1) m
  = Classical.score (Classical.query_words query2) m.
Proof.
  intro H.
  unfold Classical.score, Classical.title_matches, Classical.overview_matches,
    Classical.query_words.
  rewrite (same_words_intersection _ _ _ H).
  rewrite (same_words_intersection _ _
             (set (split (lower (get (overview m) "")))) H).
  reflexivity.
Qed.

Lemma fold_left_ext_step (f g : Classical.state -> Movie -> Classical.state)
  (l : list Movie) (st : Classical.state) :
  (forall (s : Classical.state) (m : Movie), f s m = g s m) ->
  fold_left f l st = fold_left g l st.
Proof.
  intro H. revert st. induction l as [|x l IH]; intro st; simpl;
    [reflexivity|].
  rewrite H. apply IH.
Qed.

(** X9: the heuristic ranker reads the query as the set of its lower-cased
    words: two queries with the same words, in any order and with any
    repetitions, give the same score vector and the same result. *)
Theorem classical_search_word_set :
  forall (movies : list Movie) (query1 query2 : string),
    (forall w : string,
        In w (split (lower query1)) <-> In w (split (lower query2))) ->
    Classical.scores movies query1 = Classical.scores movies query2
    /\ Classical.classical_search movies query1
       = Classical.classical_search movies query2.
Proof.
  intros movies query1 query2 H. split.
  - unfold Classical.scores. apply map_ext. intro m.
    apply same_words_score. assumption.
  - unfold Classical.classical_search. destruct movies as [|first rest];
      [reflexivity|].
    rewrite (fold_left_ext_step
               (Classical.step (Classical.query_words query1))
               (Classical.step (Classical.query_words query2))).
    + reflexivity.
    + intros s m. unfold Classical.step.
      rewrite (same_words_score query1 query2 m H). reflexivity.
Qed.

Lemma classical_search_word_set_witness :
  Classical.scores Example.candidates "matrix hacker"
  = Classical.scores Example.candidates "HACKER   Matrix hacker"
  /\ Classical.classical_search Example.candidates "matrix hacker"
     = Classical.classical_search Example.candidates "HACKER   Matrix hacker".
Proof.
  apply (classical_search_word_set Example.candidates
           "matrix hacker" "HACKER   Matrix hacker").
  intro w. vm_compute. tauto.
Defined.

(** * Properties of the exact match on title and year *)

(** ** Strings *)

Lemma lstrip_spaces (a s : string) :
  lstrip a = EmptyString -> lstrip (a ++ s) = lstrip s.
Proof.
  induction a as [|c a IH]; intro H; simpl in *; [reflexivity|].
  destruct (is_space c); [apply IH; assumption | discriminate].
Qed.

Lemma rstrip_spaces_only (b : string) :
  lstrip b = EmptyString -> rstrip b = EmptyString.
Proof.
  induction b as [|c b IH]; intro H; simpl in *; [reflexivity|].
  destruct (is_space c); [|discriminate].
  rewrite (IH H). reflexivity.
Qed.

Lemma rstrip_spaces (s b : string) :
  lstrip b = EmptyString -> rstrip (s ++ b) = rstrip s.
Proof.
  intro H. induction s as [|c s IH]; simpl.
  - apply rstrip_spaces_only. assumption.
  - rewrite IH. reflexivity.
Qed.

Lemma strip_right_spaces (s b : string) :
  lstrip b = EmptyString -> strip (s ++ b) = strip s.
Proof.
  intro H. unfold strip. induction s as [|c s IH]; simpl.
  - rewrite H. reflexivity.
  - destruct (is_space c); [assumption|].
    apply (rstrip_spaces (String c s) b H).
Qed.

Lemma strip_spaces (a s b : string) :
  lstrip a = EmptyString -> lstrip b = EmptyString ->
  strip (a ++ s ++ b) = strip s.
Proof.
  intros Ha Hb. transitivity (strip (s ++ b)).
  - unfold strip. rewrite lstrip_spaces by assumption. reflexivity.
  - apply strip_right_spaces. assumption.
Qed.

Lemma lower_app (a b : string) : lower (a ++ b) = lower a ++ lower b.
Proof.
  induction a as [|c a IH]; simpl; [reflexivity|]. rewrite IH. reflexivity.
Qed.

Lemma is_space_lower_char (c : ascii) : is_space (lower_char c) = is_space c.
Proof.
  destruct c as [[] [] [] [] [] [] [] []]; reflexivity.
Qed.

Lemma lower_char_idempotent (c : ascii) :
  lower_char (lower_char c) = lower_char c.
Proof.
  destruct c as [[] [] [] [] [] [] [] []]; reflexivity.
Qed.

Lemma lower_idempotent (s : string) : lower (lower s) = lower s.
Proof.
  induction s as [|c s IH]; simpl; [reflexivity|].
  rewrite lower_char_idempotent, IH. reflexivity.
Qed.

Lemma lstrip_lower_spaces (a : string) :
  lstrip a = EmptyString -> lstrip (lower a) = EmptyString.
Proof.
  induction a as [|c a IH]; intro H; simpl in *; [reflexivity|].
  rewrite is_space_lower_char.
  destruct (is_space c); [apply IH; assumption | discriminate].
Qed.

Lemma slice_to_length (n : nat) (s : string) :
  (String.length (slice_to n s) <= n)%nat.
Proof.
  revert s. induction n as [|n IH]; intros [|c s]; simpl; try lia.
  specialize (IH s). lia.
Qed.

(** ** The loop *)

Lemma is_match_iff (e : Entry) (t y : string) :
  Application.is_match e t y = true
  <-> strip (lower (get (title (entry e)) "")) = t
      /\ slice_to 4 (get (release_date e) "") = y.
Proof.
  unfold Application.is_match. rewrite andb_true_iff, !String.eqb_eq.
  reflexivity.
Qed.

Lemma match_loop_some (movies : list Entry) (t y : string) (i : Z) :
  Application.match_loop movies t y = Some i
  <-> exists (k : nat) (e : Entry),
        nth_error movies k = Some e
        /\ id (entry e) = i
        /\ Application.is_match e t y = true
        /\ forall (j : nat) (e' : Entry),
             (j < k)%nat -> nth_error movies j = Some e' ->
             Application.is_match e' t y = false.
Proof.
  induction movies as [|m l IH]; simpl.
  - split; [discriminate|]. intros [[|k] [e [H _]]]; discriminate H.
  - destruct (Application.is_match m t y) eqn:E.
    + split.
      * intro H. injection H as <-. exists 0%nat, m.
        repeat split; try assumption; try reflexivity.
        intros j e' Hj. lia.
      * intros [[|k] [e [Hk [Hid [_ Hfirst]]]]].
        -- simpl in Hk. injection Hk as <-. rewrite Hid. reflexivity.
        -- specialize (Hfirst 0%nat m (Nat.lt_0_succ k) eq_refl). congruence.
    + rewrite IH. split.
      * intros [k [e [Hk [Hid [Hm Hfirst]]]]]. exists (S k), e.
        repeat split; try assumption.
        intros [|j] e' Hj He'; simpl in He'.
        -- injection He' as <-. assumption.
        -- apply (Hfirst j e'); [lia | assumption].
      * intros [[|k] [e [Hk [Hid [Hm Hfirst]]]]]; simpl in Hk.
        -- injection Hk as <-. congruence.
        -- exists k, e. repeat split; try assumption.
           intros j e' Hj He'. apply (Hfirst (S j) e'); [lia | assumption].
Qed.

Lemma match_loop_none (movies : list Entry) (t y : string) :
  Application.match_loop movies t y = None
  <-> forall e : Entry, In e movies -> Application.is_match e t y = false.
Proof.
  induction movies as [|m l IH]; simpl.
  - split; [intros _ e [] | reflexivity].
  - destruct (Application.is_match m t y) eqn:E.
    + split; [discriminate|]. intro H.
      rewrite (H m (or_introl eq_refl)) in E. discriminate E.
    + rewrite IH. split.
      * intros H e [<-|He]; [assumption | apply H; assumption].
      * intros H e He. apply H. right. assumption.
Qed.

(** X10: [match_movie_by_title_and_year] returns an id exactly when some
    entry has the wanted title, both lower-cased and stripped, and a release
    date whose first four characters are the stripped year; the id is that
    of the first such entry of the list. *)
Theorem match_returns_first_match :
  forall (movies : list Entry) (title_ year_ : string) (i : Z),
    Application.match_movie_by_title_and_year movies title_ year_ = Some i
    <-> exists (k : nat) (e : Entry),
          nth_error movies k = Some e
          /\ id (entry e) = i
          /\ (strip (lower (get (title (entry e)) "")) = strip (lower title_)
              /\ slice_to 4 (get (release_date e) "") = strip year_)
          /\ forall (j : nat) (e' : Entry),
               (j < k)%nat -> nth_error movies j = Some e' ->
               ~ (strip (lower (get (title (entry e')) ""))
                  = strip (lower title_)
                  /\ slice_to 4 (get (release_date e') "") = strip year_).
Proof.
  intros movies title_ year_ i.
  unfold Application.match_movie_by_title_and_year. rewrite match_loop_some.
  split; intros [k [e [Hk [Hid [Hm Hfirst]]]]]; exists k, e;
    repeat split; try assumption.
  - apply is_match_iff in Hm. apply Hm.
  - apply is_match_iff in Hm. apply Hm.
  - intros j e' Hj He' Hm'. apply is_match_iff in Hm'.
    rewrite (Hfirst j e' Hj He') in Hm'. discriminate Hm'.
  - apply is_match_iff. assumption.
  - intros j e' Hj He'.
    destruct (Application.is_match e' (strip (lower title_)) (strip year_))
      eqn:E; [|reflexivity].
    exfalso. apply (Hfirst j e' Hj He'), is_match_iff. assumption.
Qed.

(** X11: [match_movie_by_title_and_year] returns [None] exactly when no entry
    of the list has the wanted title and year; in particular on the empty
    list. *)
Theorem match_none_iff_no_match :
  forall (movies : list Entry) (title_ year_ : string),
    Application.match_movie_by_title_and_year movies title_ year_ = None
    <-> forall e : Entry,
          In e movies ->
          ~ (strip (lower (get (title (entry e)) "")) = strip (lower title_)
             /\ slice_to 4 (get (release_date e) "") = strip year_).
Proof.
  intros movies title_ year_.
  unfold Application.match_movie_by_title_and_year. rewrite match_loop_none.
  split; intros H e He.
  - intro Hm. apply is_match_iff in Hm. rewrite (H e He) in Hm.
    discriminate Hm.
  - destruct (Application.is_match e (strip (lower title_)) (strip year_))
      eqn:E; [|reflexivity].
    exfalso. apply (H e He), is_match_iff. assumption.
Qed.

(** X12: the result of [match_movie_by_title_and_year] does not change when
    white space is put around the title or around the year, nor when the
    title is replaced by a title with the same lower-case form. *)
Theorem match_ignores_case_and_padding :
  forall (movies : list Entry) (title_ year_ a b title2 : string),
    lstrip a = EmptyString ->
    lstrip b = EmptyString ->
    lower title2 = lower title_ ->
    Application.match_movie_by_title_and_year movies (a ++ title2 ++ b)
      (a ++ year_ ++ b)
    = Application.match_movie_by_title_and_year movies title_ year_.
Proof.
  intros movies title_ year_ a b title2 Ha Hb Hl.
  unfold Application.match_movie_by_title_and_year.
  rewrite !lower_app, Hl.
  rewrite strip_spaces
    by (try apply lstrip_lower_spaces; assumption).
  rewrite (strip_spaces a year_ b Ha Hb). reflexivity.
Qed.

Lemma match_ignores_case_and_padding_witness :
  Application.match_movie_by_title_and_year
    [mkEntry Example.the_matrix (Some "1999-03-31")]
    ("  " ++ "THE MATRIX" ++ " ") ("  " ++ "1999" ++ " ")
  = Application.match_movie_by_title_and_year
      [mkEntry Example.the_matrix (Some "1999-03-31")] "the matrix" "1999".
Proof.
  apply (match_ignores_case_and_padding
           [mkEntry Example.the_matrix (Some "1999-03-31")]
           "the matrix" "1999" "  " " " "THE MATRIX");
    reflexivity.
Defined.

(** X13: only the first four characters of a release date are compared, so a
    year that is longer than four characters after stripping matches no
    entry. *)
Theorem match_long_year_none :
  forall (movies : list Entry) (title_ year_ : string),
    (4 < String.length (strip year_))%nat ->
    Application.match_movie_by_title_and_year movies title_ year_ = None.
Proof.
  intros movies title_ year_ H.
  unfold Application.match_movie_by_title_and_year. apply match_loop_none.
  intros e _.
  destruct (Application.is_match e (strip (lower title_)) (strip year_))
    eqn:E; [|reflexivity].
  apply is_match_iff in E. destruct E as [_ Hy].
  pose proof (slice_to_length 4 (get (release_date e) "")) as L.
  rewrite Hy in L. lia.
Qed.

Lemma match_long_year_none_witness :
  Application.match_movie_by_title_and_year
    [mkEntry Example.the_matrix (Some "1999-03-31")] "The Matrix" "1999-03-31"
  = None.
Proof.
  apply (match_long_year_none
           [mkEntry Example.the_matrix (Some "1999-03-31")]
           "The Matrix" "1999-03-31").
  simpl. lia.
Defined.

(** * Properties of the choice among the search results *)

(** ** The number in the answer *)

Lemma take_digits_length (s : string) :
  (String.length (take_digits s) <= String.length s)%nat.
Proof.
  induction s as [|c s IH]; simpl; [lia|].
  destruct (is_digit c); simpl; lia.
Qed.

Lemma search_digits_length (s d : string) :
  search_digits s = Some d -> (String.length d <= String.length s)%nat.
Proof.
  revert d. induction s as [|c s IH]; intros d H; [discriminate|].
  cbn [search_digits] in H. destruct (is_digit c) eqn:C.
  - injection H as H. rewrite <- H. apply (take_digits_length (String c s)).
  - specialize (IH d H). simpl. lia.
Qed.

Lemma int_ok (d : string) :
  (String.length d <= 4300)%nat -> int d = Ok (int_from 0 d).
Proof.
  intro H. unfold int.
  destruct (Nat.ltb_spec 4300 (String.length d)); [lia | reflexivity].
Qed.

Lemma take_digits_app (ds post : string) :
  take_digits ds = ds -> take_digits post = EmptyString ->
  take_digits (ds ++ post) = ds.
Proof.
  intros Hd Hp. induction ds as [|c ds IH]; simpl in *; [assumption|].
  destruct (is_digit c); [|discriminate].
  injection Hd as Hd. rewrite (IH Hd). reflexivity.
Qed.

(** A text made of a part without digits, a run of digits and a part that
    does not go on with a digit: the run is what [re.search] finds. *)
Lemma search_digits_app (pre ds post : string) :
  search_digits pre = None ->
  ds <> EmptyString ->
  take_digits ds = ds ->
  take_digits post = EmptyString ->
  search_digits (pre ++ ds ++ post) = Some ds.
Proof.
  intros Hpre Hne Hd Hp. induction pre as [|c pre IH].
  - destruct ds as [|c ds]; [congruence|].
    change (EmptyString ++ String c ds ++ post)%string
      with (String c ds ++ post)%string.
    pose proof (take_digits_app (String c ds) post Hd Hp) as T.
    assert (Hc : is_digit c = true).
    { simpl in Hd. destruct (is_digit c); [reflexivity | discriminate]. }
    change (String c ds ++ post)%string with (String c (ds ++ post)) in *.
    cbn [search_digits]. rewrite Hc. rewrite T. reflexivity.
  - cbn [search_digits] in Hpre.
    change (String c pre ++ ds ++ post)%string
      with (String c (pre ++ ds ++ post)).
    cbn [search_digits].
    destruct (is_digit c); [discriminate|]. apply IH. assumption.
Qed.

Lemma select_best_outcomes
  (movies : list Entry) (original_query : string) (reply : option string) :
  movies <> [] ->
  OpenAI.select_best_movie_match movies original_query reply = Raise ValueError
  \/ exists e : Entry,
       In e movies
       /\ OpenAI.select_best_movie_match movies original_query reply
          = Ok (Some (id (entry e))).
Proof.
  intro Hne. destruct movies as [|first rest]; [congruence|].
  assert (Hfirst : exists e : Entry,
             In e (first :: rest)
             /\ @Ok (option Z) (Some (id (entry first)))
                = Ok (Some (id (entry e)))).
  { exists first. split; [left|]; reflexivity. }
  unfold OpenAI.select_best_movie_match.
  destruct reply as [[|c text]|]; try (right; exact Hfirst).
  destruct (search_digits (String c text)) as [d|]; [|right; exact Hfirst].
  unfold int. destruct (4300 <? String.length d)%nat; [left; reflexivity|].
  cbn [bind].
  destruct ((0 <=? int_from 0 d - 1) && _)%Z eqn:B; [|right; exact Hfirst].
  unfold getitem.
  destruct (nth_error (first :: rest) (Z.to_nat (int_from 0 d - 1)))
    as [e|] eqn:E.
  - right. exists e. split; [eapply nth_error_In; eassumption | reflexivity].
  - exfalso. apply nth_error_None in E. unfold len in B.
    apply andb_true_iff in B. destruct B as [B1 B2].
    apply Z.leb_le in B1. apply Z.ltb_lt in B2. lia.
Qed.

Lemma select_best_bounded
  (movies : list Entry) (original_query : string) (reply : option string) :
  movies <> [] ->
  (forall text : string,
      reply = Some text -> (String.length text <= 4300)%nat) ->
  exists e : Entry,
    In e movies
    /\ OpenAI.select_best_movie_match movies original_query reply
       = Ok (Some (id (entry e))).
Proof.
  intros Hne Hlen.
  destruct (select_best_outcomes movies original_query reply Hne)
    as [H|H]; [|assumption].
  exfalso. destruct movies as [|first rest]; [congruence|].
  unfold OpenAI.select_best_movie_match in H.
  destruct reply as [[|c text]|]; try discriminate H.
  destruct (search_digits (String c text)) as [d|] eqn:D;
    [|discriminate H].
  pose proof (search_digits_length _ _ D) as L.
  specialize (Hlen (String c text) eq_refl).
  rewrite int_ok in H by lia. cbn [bind] in H.
  destruct ((0 <=? int_from 0 d - 1) && _)%Z; [|discriminate H].
  unfold getitem in H.
  destruct (nth_error (first :: rest) (Z.to_nat (int_from 0 d - 1)));
    discriminate H.
Qed.

(** X14: on a non-empty list, and for an answer of at most 4300 characters
    (or none), [select_best_movie_match] returns the id of one of the
    entries: it never returns [None] there and never raises, whatever the
    answer says. *)
Theorem select_best_returns_candidate :
  forall (movies : list Entry) (original_query : string)
         (reply : option string),
    movies <> [] ->
    (forall text : string,
        reply = Some text -> (String.length text <= 4300)%nat) ->
    exists e : Entry,
      In e movies
      /\ OpenAI.select_best_movie_match movies original_query reply
         = Ok (Some (id (entry e))).
Proof.
  exact select_best_bounded.
Qed.

Lemma select_best_returns_candidate_witness :
  exists e : Entry,
    In e [mkEntry Example.the_matrix None; mkEntry Example.inception None]
    /\ OpenAI.select_best_movie_match
         [mkEntry Example.the_matrix None; mkEntry Example.inception None]
         "matrix" (Some "I would pick 7.")
       = Ok (Some (id (entry e))).
Proof.
  apply (select_best_returns_candidate
           [mkEntry Example.the_matrix None; mkEntry Example.inception None]
           "matrix" (Some "I would pick 7.")).
  - discriminate.
  - intros text H. injection H as <-. simpl. lia.
Defined.

(** X15: when the answer holds a number, the first one counts: if its value
    is [k + 1] and the list has an entry at position [k], the id of that
    entry is returned, also beyond the ten entries the prompt shows. *)
Theorem select_best_picks_number :
  forall (movies : list Entry) (original_query pre ds post : string)
         (k : nat) (e : Entry),
    search_digits pre = None ->
    ds <> EmptyString ->
    take_digits ds = ds ->
    take_digits post = EmptyString ->
    (String.length ds <= 4300)%nat ->
    int_from 0 ds = Z.of_nat (S k) ->
    nth_error movies k = Some e ->
    OpenAI.select_best_movie_match movies original_query
      (Some (pre ++ ds ++ post))
    = Ok (Some (id (entry e))).
Proof.
  intros movies original_query pre ds post k e Hpre Hne Hd Hp Hlen Hv Hk.
  pose proof (search_digits_app pre ds post Hpre Hne Hd Hp) as Hs.
  unfold OpenAI.select_best_movie_match.
  destruct movies as [|first rest]; [destruct k; discriminate Hk|].
  destruct (pre ++ ds ++ post)%string as [|c text] eqn:T; [discriminate Hs|].
  rewrite Hs, (int_ok ds Hlen). cbn [bind]. rewrite Hv.
  assert (Hlt : (k < List.length (first :: rest))%nat).
  { apply nth_error_Some. congruence. }
  replace (Z.of_nat (S k) - 1)%Z with (Z.of_nat k) by lia.
  unfold len.
  destruct ((0 <=? Z.of_nat k) && (Z.of_nat k <? Z.of_nat (List.length (first :: rest))))%Z
    eqn:B.
  - rewrite Nat2Z.id. unfold getitem. rewrite Hk. reflexivity.
  - exfalso. apply andb_false_iff in B. destruct B as [B|B].
    + apply Z.leb_gt in B. lia.
    + apply Z.ltb_ge in B. lia.
Qed.

Lemma select_best_picks_number_witness :
  OpenAI.select_best_movie_match
    [mkEntry Example.the_matrix None; mkEntry Example.inception None]
    "dreams" (Some ("Movie " ++ "02" ++ " fits best, not 1"))
  = Ok (Some (id (entry (mkEntry Example.inception None)))).
Proof.
  apply (select_best_picks_number
           [mkEntry Example.the_matrix None; mkEntry Example.inception None]
           "dreams" "Movie " "02" " fits best, not 1" 1
           (mkEntry Example.inception None));
    try reflexivity.
  - discriminate.
  - simpl. lia.
Defined.

(** X16: the first entry is the fallback: it is selected when there is no
    answer, when the answer holds no digit, and when its first number is 0
    or greater than the length of the list. *)
Theorem select_best_falls_back :
  forall (first : Entry) (rest : list Entry) (original_query : string),
    OpenAI.select_best_movie_match (first :: rest) original_query None
    = Ok (Some (id (entry first)))
    /\ (forall text : string,
           search_digits text = None ->
           OpenAI.select_best_movie_match (first :: rest) original_query
             (Some text)
           = Ok (Some (id (entry first))))
    /\ (forall pre ds post : string,
           search_digits pre = None ->
           ds <> EmptyString ->
           take_digits ds = ds ->
           take_digits post = EmptyString ->
           (String.length ds <= 4300)%nat ->
           (int_from 0 ds <= 0
            \/ Z.of_nat (List.length (first :: rest)) < int_from 0 ds)%Z ->
           OpenAI.select_best_movie_match (first :: rest) original_query
             (Some (pre ++ ds ++ post))
           = Ok (Some (id (entry first)))).
Proof.
  intros first rest original_query. split; [reflexivity|]. split.
  - intros text H. unfold OpenAI.select_best_movie_match.
    destruct text as [|c text]; [reflexivity|]. rewrite H. reflexivity.
  - intros pre ds post Hpre Hne Hd Hp Hlen Hv.
    pose proof (search_digits_app pre ds post Hpre Hne Hd Hp) as Hs.
    unfold OpenAI.select_best_movie_match.
    destruct (pre ++ ds ++ post)%string as [|c text] eqn:T; [reflexivity|].
    rewrite Hs, (int_ok ds Hlen). cbn [bind]. unfold len.
    destruct ((0 <=? int_from 0 ds - 1)
              && (int_from 0 ds - 1 <? Z.of_nat (List.length (first :: rest))))%Z
      eqn:B; [|reflexivity].
    exfalso. apply andb_true_iff in B. destruct B as [B1 B2].
    apply Z.leb_le in B1. apply Z.ltb_lt in B2. lia.
Qed.

Lemma select_best_falls_back_witness :
  OpenAI.select_best_movie_match
    [mkEntry Example.the_matrix None; mkEntry Example.inception None]
    "dreams" (Some ("Number " ++ "3" ++ "."))
  = Ok (Some 1%Z).
Proof.
  destruct (select_best_falls_back (mkEntry Example.the_matrix None)
              [mkEntry Example.inception None] "dreams")
    as [_ [_ H]].
  apply (H "Number " "3" "."); try reflexivity.
  - discriminate.
  - simpl. lia.
  - right. vm_compute. reflexivity.
Defined.

(** ** The choice of [movie_id] in [search] *)

Lemma handler_raised {A : Type} (body : Application.outcome A)
  (r : Application.raised) :
  Application.handler body = Application.Raised r ->
  r = Application.HTTPException 500 "Internal server error".
Proof.
  destruct body; simpl; intro H; [discriminate|]. congruence.
Qed.

(** X17: whatever [search] raises while it chooses the movie, the client
    gets status 500 with the detail "Internal server error".  This takes in
    the 404 "No movies found" raised for an empty result list: the handler
    catches it like any other exception, so the 404 is never delivered. *)
Theorem search_errors_are_500 :
  forall (request : Application.SearchRequest)
         (refined_data : Application.RefinedData)
         (movies : list Entry) (reply : option string) (rs : RandomSource),
    (forall r : Application.raised,
        Application.search_movie_id request refined_data movies reply rs
        = Application.Raised r ->
        r = Application.HTTPException 500 "Internal server error")
    /\ Application.search_movie_id request refined_data [] reply rs
       = Application.Raised
           (Application.HTTPException 500 "Internal server error").
Proof.
  intros request refined_data movies reply rs. split.
  - intros r H. unfold Application.search_movie_id in H.
    apply handler_raised in H. assumption.
  - reflexivity.
Qed.

Lemma match_in_list (movies : list Entry) (t y : string) (i : Z) :
  Application.match_movie_by_title_and_year movies t y = Some i ->
  exists e : Entry, In e movies /\ id (entry e) = i.
Proof.
  unfold Application.match_movie_by_title_and_year. intro H.
  apply match_loop_some in H. destruct H as [k [e [Hk [Hid _]]]].
  exists e. split; [eapply nth_error_In; eassumption | assumption].
Qed.

Lemma entry_of (movies : list Entry) (m : Movie) :
  In m (map entry movies) -> exists e : Entry, In e movies /\ entry e = m.
Proof.
  intro H. apply in_map_iff in H. destruct H as [e [He Hin]].
  exists e. split; assumption.
Qed.

(** The part of [search] after the exact match has failed. *)
Lemma rankers_return_entry
  (request : Application.SearchRequest) (refined_query : string)
  (movies : list Entry) (reply : option string) (rs : RandomSource)
  (r : option Z) :
  movies <> [] ->
  Application.ranked request refined_query movies reply rs
  = Application.Return r ->
  exists e : Entry, In e movies /\ r = Some (id (entry e)).
Proof.
  intros Hne H. unfold Application.ranked in H.
  assert (Hmap : map entry movies <> []).
  { destruct movies; [congruence | discriminate]. }
  destruct (Application.use_quantum request).
  - destruct (quantum_search_outcomes (map entry movies) refined_query rs Hmap)
      as [i [w [_ [[_ Hq]|[_ [m [Hm Hq]]]]]]]; rewrite Hq in H; simpl in H.
    + discriminate H.
    + injection H as <-. destruct (entry_of movies m Hm) as [e [He <-]].
      exists e. split; [assumption | reflexivity].
  - destruct (select_best_outcomes movies (Application.query request) reply Hne)
      as [Hs|[e [He Hs]]]; rewrite Hs in H; simpl in H; [discriminate H|].
    destruct (id (entry e) =? 0)%Z.
    + destruct (classical_candidate (map entry movies) refined_query Hmap)
        as [m [Hm Hc]].
      rewrite Hc in H. simpl in H. injection H as <-.
      destruct (entry_of movies m Hm) as [e' [He' <-]].
      exists e'. split; [assumption | reflexivity].
    + injection H as <-. exists e. split; [assumption | reflexivity].
Qed.

(** X18: whenever [search] gets as far as [get_movie_details], the id it
    passes on is the id of one of the search results, whatever the refined
    query, the answer of the model and the random draws are. *)
Theorem search_selects_a_result :
  forall (request : Application.SearchRequest)
         (refined_data : Application.RefinedData)
         (movies : list Entry) (reply : option string) (rs : RandomSource)
         (r : option Z),
    Application.search_movie_id request refined_data movies reply rs
    = Application.Return r ->
    exists e : Entry, In e movies /\ r = Some (id (entry e)).
Proof.
  intros request refined_data movies reply rs r H.
  unfold Application.search_movie_id in H.
  destruct movies as [|first rest]; [discriminate H|].
  set (movies := first :: rest) in *.
  assert (Hne : movies <> []) by discriminate.
  cbv zeta in H.
  set (refined_query :=
         get (Application.refined_query refined_data)
           (Application.query request)) in *.
  destruct (Application.exact_match movies refined_query
              (Application.likely_year refined_data)) as [i|] eqn:M.
  - cbn [Application.falsy] in H. destruct (i =? 0)%Z.
    + unfold Application.handler in H.
      destruct (Application.ranked request refined_query movies reply rs)
        eqn:B; [|discriminate H].
      injection H as <-. eapply rankers_return_entry; eassumption.
    + cbn [Application.handler] in H. injection H as <-.
      unfold Application.exact_match in M.
      destruct (Application.likely_year refined_data) as [[|a s]|];
        try discriminate M.
      destruct (match_in_list _ _ _ _ M) as [e [He <-]].
      exists e. split; [assumption | reflexivity].
  - cbn [Application.falsy] in H. unfold Application.handler in H.
    destruct (Application.ranked request refined_query movies reply rs)
      eqn:B; [|discriminate H].
    injection H as <-. eapply rankers_return_entry; eassumption.
Qed.

Lemma search_selects_a_result_witness :
  exists e : Entry,
    In e [mkEntry Example.the_matrix (Some "1999-03-31");
          mkEntry Example.matrix_reloaded (Some "2003-05-15")]
    /\ Some 2%Z = Some (id (entry e)).
Proof.
  apply (search_selects_a_result
           (Application.mkRequest "matrix reloded" true)
           (Application.mkRefined (Some "Matrix Reloaded") (Some "title")
              (Some "2003"))
           [mkEntry Example.the_matrix (Some "1999-03-31");
            mkEntry Example.matrix_reloaded (Some "2003-05-15")]
           None (mkRandom 0 0 0) (Some 2%Z)).
  reflexivity.
Defined.

(** X19: an exact match on title and year decides: when the refined data
    have a year and some search result matches the refined query and that
    year, the id of the first match is chosen, unless it is 0, whichever
    ranker the request asks for and whatever the model answers. *)
Theorem search_exact_match_wins :
  forall (request : Application.SearchRequest)
         (refined_data : Application.RefinedData)
         (movies : list Entry) (reply : option string) (rs : RandomSource)
         (year_ : string) (i : Z),
    Application.likely_year refined_data = Some year_ ->
    year_ <> EmptyString ->
    Application.match_movie_by_title_and_year movies
      (get (Application.refined_query refined_data)
         (Application.query request))
      year_
    = Some i ->
    i <> 0%Z ->
    Application.search_movie_id request refined_data movies reply rs
    = Application.Return (Some i).
Proof.
  intros request refined_data movies reply rs year_ i Hy Hne M Hi.
  unfold Application.search_movie_id. cbv zeta.
  destruct movies as [|first rest]; [discriminate M|].
  unfold Application.exact_match. rewrite Hy.
  destruct year_ as [|a s]; [congruence|].
  rewrite M. cbn [Application.falsy].
  destruct (Z.eqb_spec i 0); [contradiction | reflexivity].
Qed.

Lemma search_exact_match_wins_witness :
  Application.search_movie_id
    (Application.mkRequest "matrix reloded" true)
    (Application.mkRefined (Some "Matrix Reloaded") (Some "title")
       (Some "2003"))
    [mkEntry Example.the_matrix (Some "1999-03-31");
     mkEntry Example.matrix_reloaded (Some "2003-05-15")]
    None (mkRandom 0 0 0)
  = Application.Return (Some 2%Z).
Proof.
  apply (search_exact_match_wins
           (Application.mkRequest "matrix reloded" true)
           (Application.mkRefined (Some "Matrix Reloaded") (Some "title")
              (Some "2003"))
           [mkEntry Example.the_matrix (Some "1999-03-31");
            mkEntry Example.matrix_reloaded (Some "2003-05-15")]
           None (mkRandom 0 0 0) "2003" 2%Z);
    try reflexivity; discriminate.
Defined.



(** * Properties of the trailer *)

Lemma is_official_trailer_iff (v : Tmdb.Video) :
  Tmdb.is_official_trailer v = true
  <-> Tmdb.video_type v = Some "Trailer"
      /\ Tmdb.site v = Some "YouTube"
      /\ Tmdb.official v = Some true.
Proof.
  unfold Tmdb.is_official_trailer, Tmdb.eq_str. split.
  - intro H. apply andb_true_iff in H. destruct H as [H12 H3].
    apply andb_true_iff in H12. destruct H12 as [H1 H2].
    destruct (Tmdb.video_type v) as [t|]; [|discriminate H1].
    destruct (Tmdb.site v) as [s|]; [|discriminate H2].
    destruct (Tmdb.official v) as [[]|]; try discriminate H3.
    apply String.eqb_eq in H1, H2. subst. repeat split.
  - intros [H1 [H2 H3]]. rewrite H1, H2, H3. reflexivity.
Qed.

(** X22: [extract_official_trailer] returns a URL exactly when some video is
    a trailer on YouTube marked official; the URL is the YouTube watch
    address of the key of the first such video, with the text [None] for a
    missing key. *)
Theorem trailer_is_first_official :
  forall (videos : list Tmdb.Video) (url : string),
    Tmdb.extract_official_trailer videos = Some url
    <-> exists (k : nat) (v : Tmdb.Video),
          nth_error videos k = Some v
          /\ (Tmdb.video_type v = Some "Trailer"
              /\ Tmdb.site v = Some "YouTube"
              /\ Tmdb.official v = Some true)
          /\ url = ("https://www.youtube.com/watch?v="
                    ++ get (Tmdb.key v) "None")%string
          /\ forall (j : nat) (v' : Tmdb.Video),
               (j < k)%nat -> nth_error videos j = Some v' ->
               ~ (Tmdb.video_type v' = Some "Trailer"
                  /\ Tmdb.site v' = Some "YouTube"
                  /\ Tmdb.official v' = Some true).
Proof.
  intros videos url. induction videos as [|x l IH]; cbn [Tmdb.extract_official_trailer].
  - split; [discriminate|]. intros [[|k] [v [H _]]]; discriminate H.
  - destruct (Tmdb.is_official_trailer x) eqn:E.
    + split.
      * intro H. injection H as <-. exists 0%nat, x.
        split; [reflexivity|]. split; [apply is_official_trailer_iff, E|].
        split; [reflexivity|]. intros j v' Hj. lia.
      * intros [[|k] [v [Hk [Hv [Hu Hfirst]]]]].
        -- simpl in Hk. injection Hk as <-. rewrite Hu. reflexivity.
        -- exfalso. apply (Hfirst 0%nat x (Nat.lt_0_succ k) eq_refl).
           apply is_official_trailer_iff. assumption.
    + rewrite IH. split.
      * intros [k [v [Hk [Hv [Hu Hfirst]]]]]. exists (S k), v.
        repeat split; try assumption; try apply Hv.
        intros [|j] v' Hj Hv'; simpl in Hv'.
        -- injection Hv' as <-. intro F.
           apply is_official_trailer_iff in F. congruence.
        -- apply (Hfirst j v'); [lia | assumption].
      * intros [[|k] [v [Hk [Hv [Hu Hfirst]]]]]; simpl in Hk.
        -- injection Hk as <-. apply is_official_trailer_iff in Hv.
           congruence.
        -- exists k, v. repeat split; try assumption; try apply Hv.
           intros j v' Hj Hv'. apply (Hfirst (S j) v'); [lia | assumption].
Qed.

(** X23: [extract_official_trailer] returns [None] exactly when no video of
    the list is a trailer on YouTube marked official; a video without the
    key [official] does not count. *)
Theorem trailer_none_iff_no_official :
  forall videos : list Tmdb.Video,
    Tmdb.extract_official_trailer videos = None
    <-> forall v : Tmdb.Video,
          In v videos ->
          ~ (Tmdb.video_type v = Some "Trailer"
             /\ Tmdb.site v = Some "YouTube"
             /\ Tmdb.official v = Some true).
Proof.
  induction videos as [|x l IH]; cbn [Tmdb.extract_official_trailer].
  - split; [intros _ v [] | reflexivity].
  - destruct (Tmdb.is_official_trailer x) eqn:E.
    + split; [discriminate|]. intro H. exfalso.
      apply (H x (or_introl eq_refl)), is_official_trailer_iff. assumption.
    + rewrite IH. split.
      * intros H v [<-|Hv]; [|apply H; assumption].
        intro F. apply is_official_trailer_iff in F. congruence.
      * intros H v Hv. apply H. right. assumption.
Qed.

(** * A query without words *)

Lemma split_spaces (s : string) : lstrip s = EmptyString -> split s = [].
Proof.
  induction s as [|c s IH]; intro H; [reflexivity|].
  cbn [lstrip] in H. cbn [split].
  destruct (is_space c); [apply IH; assumption | discriminate].
Qed.

(** X24: for an empty query, or one of white space only, no term is counted:
    both rankers score every candidate with its popularity divided by 20
    and nothing else. *)
Theorem blank_query_popularity_only :
  forall (movies : list Movie) (query : string),
    lstrip query = EmptyString ->
    Forall2 (fun (s : Q) (m : Movie) => s == get (popularity m) 0 / 20)
      (Classical.scores movies query) movies
    /\ Forall2 (fun (s : Q) (m : Movie) => s == get (popularity m) 0 / 20)
         (Grover.scores movies query) movies.
Proof.
  intros movies query H.
  assert (Hs : split (lower query) = []).
  { apply split_spaces, lstrip_lower_spaces. assumption. }
  unfold Classical.scores, Grover.scores, Classical.query_words,
    Grover.query_terms.
  rewrite Hs. split; induction movies as [|m l IH]; cbn [map];
    constructor; try assumption; cbv beta.
  - unfold Classical.score, Classical.popularity_term.
    change (Classical.title_matches (set []) m) with 0%nat.
    change (Classical.overview_matches (set []) m) with 0%nat.
    change (of_nat 0) with 0. ring.
  - unfold Grover.total_score, Grover.popularity_term.
    change (Grover.title_score [] m) with 0%nat.
    change (Grover.overview_score [] m) with 0%nat.
    change (of_nat 0) with 0. ring.
Qed.

Lemma blank_query_popularity_only_witness :
  Forall2 (fun (s : Q) (m : Movie) => s == get (popularity m) 0 / 20)
    (Grover.scores Example.candidates "   ") Example.candidates.
Proof.
  apply (blank_query_popularity_only Example.candidates "   ").
  reflexivity.
Defined.

Lemma search_errors_are_500_witness :
  Application.search_movie_id
    (Application.mkRequest "zone" false)
    (Application.mkRefined None None None) [] None (mkRandom 0 0 0)
  = Application.Raised (Application.HTTPException 500 "Internal server error").
Proof.
  apply (search_errors_are_500
           (Application.mkRequest "zone" false)
           (Application.mkRefined None None None) [] None (mkRandom 0 0 0)).
Defined.


(** * The heuristic ranker on binary64 *)

(** ** The order of the floats *)

Ltac compare_cases :=
  repeat match goal with
    | H : context [Z.compare ?x ?y] |- _ => destruct (Z.compare_spec x y)
    | |- context [Z.compare ?x ?y] => destruct (Z.compare_spec x y)
    | H : context [Pos.compare_cont Eq ?x ?y] |- _ =>
        change (Pos.compare_cont Eq x y) with (Pos.compare x y) in H;
        destruct (Pos.compare_spec x y)
    | |- context [Pos.compare_cont Eq ?x ?y] =>
        change (Pos.compare_cont Eq x y) with (Pos.compare x y);
        destruct (Pos.compare_spec x y)
    end;
  simpl in *; subst; try discriminate; try reflexivity; try lia.

Lemma SFltb_irrefl (x : spec_float) : SFltb x x = false.
Proof.
  unfold SFltb, SFcompare.
  destruct x as [[]|[]| |[] m e]; try reflexivity; compare_cases.
Qed.

Lemma SFltb_trans (a b c : spec_float) :
  SFltb a b = true -> SFltb b c = true -> SFltb a c = true.
Proof.
  unfold SFltb, SFcompare.
  destruct a as [[]|[]| |[] ma ea], b as [[]|[]| |[] mb eb],
    c as [[]|[]| |[] mc ec]; intros H1 H2; try discriminate;
    try reflexivity; compare_cases.
Qed.

(** A float that is greater than some float is not NaN, and floats that
    are not NaN are comparable. *)
Lemma SFltb_comparable (a b c d : spec_float) :
  SFltb d b = true -> SFltb a b = false -> SFltb a c = true ->
  SFltb b c = true.
Proof.
  unfold SFltb, SFcompare.
  destruct a as [[]|[]| |[] ma ea], b as [[]|[]| |[] mb eb],
    c as [[]|[]| |[] mc ec]; intros H0 H1 H2; try discriminate;
    try reflexivity;
    try (destruct d as [[]|[]| |[] md ed]; discriminate);
    clear H0; compare_cases.
Qed.

Lemma SFltb_not_above (a b c : spec_float) :
  SFltb a b = false -> SFltb a c = true -> SFltb c b = false.
Proof.
  intros H1 H2. destruct (SFltb c b) eqn:E; [|reflexivity].
  rewrite (SFltb_trans a c b H2 E) in H1. discriminate H1.
Qed.

(** ** The sign of the computed scores *)

Lemma shr_1_nonneg (mrs : shr_record) :
  (0 <= shr_m mrs)%Z -> (0 <= shr_m (shr_1 mrs))%Z.
Proof.
  destruct mrs as [m r s]. cbn [shr_m]. intros H.
  destruct m as [|[p|p|]|p]; cbn; lia.
Qed.

Lemma iter_shr_1_nonneg (p : positive) (mrs : shr_record) :
  (0 <= shr_m mrs)%Z -> (0 <= shr_m (iter_pos shr_1 p mrs))%Z.
Proof.
  revert mrs. induction p as [p IH|p IH|]; intros mrs H; cbn [iter_pos].
  - apply IH, IH, shr_1_nonneg, H.
  - apply IH, IH, H.
  - apply shr_1_nonneg, H.
Qed.

Lemma shr_fexp_nonneg (m e : Z) (l : location) :
  (0 <= m)%Z ->
  (0 <= shr_m (fst (shr_fexp Binary64.prec Binary64.emax m e l)))%Z.
Proof.
  intros H. unfold shr_fexp, shr.
  assert (H0 : (0 <= shr_m (shr_record_of_loc m l))%Z)
    by (destruct l as [|[| |]]; exact H).
  destruct (fexp Binary64.prec Binary64.emax (Zdigits2 m + e) - e)%Z;
    cbn [fst]; [exact H0 | apply iter_shr_1_nonneg, H0 | exact H0].
Qed.

Lemma round_nearest_even_nonneg (m : Z) (l : location) :
  (0 <= m)%Z -> (0 <= round_nearest_even m l)%Z.
Proof.
  intros H. destruct l as [|[| |]]; cbn [round_nearest_even];
    try destruct (Z.even m); lia.
Qed.

(** Rounding keeps the sign. *)
Lemma binary_round_aux_nonneg (m e : Z) (l : location) :
  (0 <= m)%Z ->
  Binary64.nonnegative
    (binary_round_aux Binary64.prec Binary64.emax false m e l) = true.
Proof.
  intros H. unfold binary_round_aux.
  pose proof (shr_fexp_nonneg m e l H) as H1.
  destruct (shr_fexp Binary64.prec Binary64.emax m e l) as [mrs' e'].
  cbn [fst] in H1.
  pose proof (shr_fexp_nonneg _ e' loc_Exact
                (round_nearest_even_nonneg _ (loc_of_shr_record mrs') H1))
    as H2.
  destruct (shr_fexp Binary64.prec Binary64.emax _ e' loc_Exact)
    as [mrs'' e''].
  cbn [fst] in H2.
  destruct (shr_m mrs'') as [|p|p]; [reflexivity| |lia].
  destruct (e'' <=? Binary64.emax - Binary64.prec)%Z; reflexivity.
Qed.

Lemma binary_normalize_nonneg (z e : Z) :
  (0 <= z)%Z ->
  Binary64.nonnegative
    (binary_normalize Binary64.prec Binary64.emax z e false) = true.
Proof.
  intros H. destruct z as [|p|p]; [reflexivity| |lia].
  cbn [binary_normalize]. unfold binary_round.
  destruct (shl_align p e _) as [mz ez].
  apply binary_round_aux_nonneg. lia.
Qed.

(** The quotient of a float that is not negative by a positive one. *)
Lemma SFdiv_nonneg (x : spec_float) (my : positive) (ey : Z) :
  Binary64.nonnegative x = true ->
  Binary64.nonnegative
    (SFdiv Binary64.prec Binary64.emax x (S754_finite false my ey)) = true.
Proof.
  intros H. destruct x as [s|s| |s mx ex]; try discriminate H.
  - reflexivity.
  - cbn in H |- *. destruct s; [discriminate H|reflexivity].
  - cbn [Binary64.nonnegative] in H. destruct s; [discriminate H|].
    cbn [SFdiv xorb]. unfold SFdiv_core_binary.
    set (m' := match _ with Z0 => _ | Zpos _ => _ | Zneg _ => _ end).
    assert (Hm : (0 <= m')%Z).
    { subst m'.
      match goal with |- context [match ?s with _ => _ end] => destruct s end;
        [lia| |lia].
      apply Z.shiftl_nonneg. lia. }
    pose proof (Z.div_pos m' (Zpos my) Hm ltac:(lia)) as Hq.
    unfold Z.div in Hq.
    destruct (Z.div_eucl m' (Z.pos my)) as [q r]. cbn [fst] in Hq.
    apply binary_round_aux_nonneg, Hq.
Qed.

Lemma SFadd_nonneg (x y : spec_float) :
  Binary64.nonnegative x = true -> Binary64.nonnegative y = true ->
  Binary64.nonnegative (SFadd Binary64.prec Binary64.emax x y) = true.
Proof.
  intros Hx Hy.
  destruct x as [sx|sx| |sx mx ex]; try discriminate Hx;
    destruct y as [sy|sy| |sy my ey]; try discriminate Hy;
    cbn [Binary64.nonnegative] in Hx, Hy;
    try (destruct sx; try discriminate Hx);
    try (destruct sy; try discriminate Hy);
    try reflexivity.
  cbn [SFadd cond_Zopp]. apply binary_normalize_nonneg. lia.
Qed.

Lemma nonnegative_above_minus_one (s : spec_float) :
  Binary64.nonnegative s = true -> SFltb Binary64.minus_one s = true.
Proof.
  destruct s as [sx|sx| |sx m e]; intros H; try discriminate H;
    cbn [Binary64.nonnegative] in H; try (destruct sx; try discriminate H);
    reflexivity.
Qed.

Lemma float_of_int_nonneg (z : Z) (f : spec_float) :
  (0 <= z)%Z -> Binary64.float_of_int z = Ok f ->
  Binary64.nonnegative f = true.
Proof.
  intros Hz H. unfold Binary64.float_of_int in H.
  pose proof (binary_normalize_nonneg z 0 Hz) as Hn.
  destruct (binary_normalize Binary64.prec Binary64.emax z 0 false);
    try discriminate H; injection H as <-; exact Hn.
Qed.

Lemma float_of_int_20 :
  Binary64.float_of_int 20 = Ok (S754_finite false 5629499534213120 (-48)).
Proof. vm_compute. reflexivity. Qed.

Lemma truediv_20_nonneg (x : Binary64.number) (q : spec_float) :
  match x with
  | Binary64.Int z => (0 <= z)%Z
  | Binary64.Float f => Binary64.nonnegative f = true
  end ->
  Binary64.truediv x 20 = Ok q -> Binary64.nonnegative q = true.
Proof.
  intros Hx H. unfold Binary64.truediv in H.
  change (20 =? 0)%Z with false in H. cbv iota in H.
  destruct x as [z|f].
  - change (Binary64.unrounded 20) with (S754_finite false 20 0) in H.
    assert (Hz : Binary64.nonnegative (Binary64.unrounded z) = true)
      by (destruct z; [reflexivity | reflexivity | lia]).
    pose proof (SFdiv_nonneg _ 20 0 Hz) as Hq.
    destruct (SFdiv Binary64.prec Binary64.emax (Binary64.unrounded z)
                (S754_finite false 20 0));
      try discriminate H; injection H as <-; exact Hq.
  - rewrite float_of_int_20 in H. cbn [bind] in H. injection H as <-.
    apply SFdiv_nonneg, Hx.
Qed.

(** The score of a candidate whose popularity is not negative is not
    negative, and so above the initial [highest_score = -1]. *)
Lemma score_nonnegative
  (arrange : list string -> list string) (qw : list string)
  (m : Binary64.Movie) (s : spec_float) :
  Binary64.valid_candidate m ->
  Binary64.score arrange qw m = Ok s ->
  Binary64.nonnegative s = true.
Proof.
  intros Hv H. unfold Binary64.score in H. cbv zeta in H.
  destruct (Binary64.truediv (get (Binary64.popularity m) (Binary64.Int 0)) 20)
    as [q|e] eqn:Eq; [|discriminate H].
  cbn [bind] in H.
  assert (Hq : Binary64.nonnegative q = true).
  { apply (truediv_20_nonneg (get (Binary64.popularity m) (Binary64.Int 0)));
      [|exact Eq].
    unfold Binary64.valid_candidate in Hv.
    destruct (Binary64.popularity m) as [[z|f]|]; cbn [get];
      [exact Hv | exact Hv | lia]. }
  unfold Binary64.add in H.
  match type of H with
  | bind (Binary64.float_of_int ?n) _ = _ =>
      destruct (Binary64.float_of_int n) as [fn|e] eqn:En; [|discriminate H];
      assert (Hn : Binary64.nonnegative fn = true)
        by (apply (float_of_int_nonneg n); [lia | exact En])
  end.
  cbn [bind] in H. injection H as <-.
  apply SFadd_nonneg; assumption.
Qed.

Lemma valid_scores_above_minus_one
  (arrange : list string -> list string) (qw : list string)
  (movies : list Binary64.Movie) (computed : list spec_float) :
  Forall Binary64.valid_candidate movies ->
  Binary64.scores arrange qw movies = Ok computed ->
  Forall (fun s => SFltb Binary64.minus_one s = true) computed.
Proof.
  revert computed. induction movies as [|m l IH]; intros computed Hv H;
    simpl in H.
  - injection H as <-. constructor.
  - destruct (Binary64.score arrange qw m) as [s|e] eqn:Es; [|discriminate H].
    cbn [bind] in H.
    destruct (Binary64.scores arrange qw l) as [r|e]; [|discriminate H].
    cbn [bind] in H. injection H as <-.
    inversion Hv as [|? ? Hm Hl]; subst.
    constructor.
    + apply nonnegative_above_minus_one.
      apply (score_nonnegative arrange qw m s Hm Es).
    + apply IH; [assumption | reflexivity].
Qed.

(** ** The loop on the computed scores *)

Lemma scores_length
  (arrange : list string -> list string) (qw : list string)
  (movies : list Binary64.Movie) (ss : list spec_float) :
  Binary64.scores arrange qw movies = Ok ss ->
  List.length ss = List.length movies.
Proof.
  revert ss. induction movies as [|m l IH]; intros ss H; simpl in H.
  - injection H as <-. reflexivity.
  - destruct (Binary64.score arrange qw m) as [s|e]; [|discriminate H].
    cbn [bind] in H.
    destruct (Binary64.scores arrange qw l) as [r|e]; [|discriminate H].
    cbn [bind] in H. injection H as <-. simpl. rewrite (IH r eq_refl).
    reflexivity.
Qed.

(** When every score is computed the loop is a fold over the movies and
    their scores. *)
Lemma loop_scores
  (arrange : list string -> list string) (qw : list string)
  (movies : list Binary64.Movie) (ss : list spec_float)
  (st : Binary64.state) :
  Binary64.scores arrange qw movies = Ok ss ->
  Binary64.loop arrange qw movies st
  = Ok (fold_left (fun st p => Binary64.keep_best st (fst p) (snd p))
          (combine movies ss) st).
Proof.
  revert ss st. induction movies as [|m l IH]; intros ss st H; simpl in H.
  - injection H as <-. reflexivity.
  - cbn [Binary64.loop].
    destruct (Binary64.score arrange qw m) as [s|e]; [|discriminate H].
    cbn [bind] in *.
    destruct (Binary64.scores arrange qw l) as [r|e]; [|discriminate H].
    cbn [bind] in H. injection H as <-.
    rewrite (IH r _ eq_refl). reflexivity.
Qed.

Lemma fold_first_maximum (l : list (Binary64.Movie * spec_float)) :
  l <> [] ->
  (forall p : Binary64.Movie * spec_float,
      In p l -> SFltb Binary64.minus_one (snd p) = true) ->
  exists (i : nat) (m : Binary64.Movie) (s : spec_float),
    nth_error l i = Some (m, s)
    /\ fold_left (fun st p => Binary64.keep_best st (fst p) (snd p)) l
         (None, Binary64.minus_one)
       = (Some m, s)
    /\ (forall (j : nat) (p : Binary64.Movie * spec_float),
          nth_error l j = Some p -> SFltb s (snd p) = false)
    /\ (forall (j : nat) (p : Binary64.Movie * spec_float),
          (j < i)%nat -> nth_error l j = Some p -> SFltb (snd p) s = true).
Proof.
  induction l as [|[mx sx] l IH] using rev_ind; intros Hne Hall;
    [congruence|].
  rewrite fold_left_app. cbn [fold_left fst snd].
  assert (Hx : SFltb Binary64.minus_one sx = true).
  { apply (Hall (mx, sx)), in_or_app. right. left. reflexivity. }
  assert (Hl : l = [] \/ l <> []).
  { destruct l; [left; reflexivity | right; discriminate]. }
  destruct Hl as [->|Hl].
  - cbn [fold_left]. unfold Binary64.keep_best. cbn [snd]. rewrite Hx.
    exists 0%nat, mx, sx. split; [reflexivity|]. split; [reflexivity|].
    split.
    + intros [|[|j]] p H; simpl in H; try discriminate H.
      injection H as <-. apply SFltb_irrefl.
    + intros j p H. lia.
  - destruct IH as [i [m [s [Hi [Hfold [Hmax Hfirst]]]]]]; [assumption| |].
    { intros p Hp. apply Hall, in_or_app. left. assumption. }
    rewrite Hfold. unfold Binary64.keep_best. cbn [snd].
    assert (Hlen : (i < List.length l)%nat).
    { apply nth_error_Some. congruence. }
    destruct (SFltb s sx) eqn:E.
    + exists (List.length l), mx, sx. split; [|split; [reflexivity|split]].
      * rewrite nth_error_app2 by lia. rewrite Nat.sub_diag. reflexivity.
      * intros j p H.
        destruct (Nat.lt_ge_cases j (List.length l)) as [Hj|Hj].
        -- rewrite nth_error_app1 in H by assumption.
           apply (SFltb_not_above s); [eapply Hmax; eassumption | assumption].
        -- rewrite nth_error_app2 in H by assumption.
           destruct (j - List.length l)%nat as [|[|k]]; simpl in H;
             try discriminate H.
           injection H as <-. apply SFltb_irrefl.
      * intros j p Hj H. rewrite nth_error_app1 in H by assumption.
        apply (SFltb_comparable s (snd p) sx Binary64.minus_one).
        -- apply Hall, in_or_app. left. eapply nth_error_In. eassumption.
        -- eapply Hmax. eassumption.
        -- assumption.
    + exists i, m, s. split; [|split; [reflexivity|split]].
      * rewrite nth_error_app1 by assumption. assumption.
      * intros j p H.
        destruct (Nat.lt_ge_cases j (List.length l)) as [Hj|Hj].
        -- rewrite nth_error_app1 in H by assumption.
           eapply Hmax. eassumption.
        -- rewrite nth_error_app2 in H by assumption.
           destruct (j - List.length l)%nat as [|[|k]]; simpl in H;
             try discriminate H.
           injection H as <-. assumption.
      * intros j p Hj H. rewrite nth_error_app1 in H by lia.
        eapply Hfirst; eassumption.
Qed.

Lemma nth_error_combine {A B : Type} (l : list A) (r : list B)
  (i : nat) (a : A) (b : B) :
  nth_error (combine l r) i = Some (a, b)
  <-> nth_error l i = Some a /\ nth_error r i = Some b.
Proof.
  revert r i. induction l as [|x l IH]; intros [|y r] [|i]; simpl;
    try (split; [discriminate | intros [H1 H2]; discriminate]).
  - split.
    + intro H. injection H as <- <-. split; reflexivity.
    + intros [H1 H2]. injection H1 as <-. injection H2 as <-. reflexivity.
  - apply IH.
Qed.

(** C7: whenever the scores of a non-empty candidate list are computed and
    exceed the initial [highest_score = -1], as they do for candidates
    whose popularity is not negative ([valid_scores_above_minus_one]), the
    heuristic ranker returns the id of the candidate at the first position
    that attains the greatest computed score: no computed score is greater
    than its score, and every candidate whose computed score is not
    smaller, so every candidate tied with it, stands at its position or
    after it.  The scores are those of binary64, compared as the code
    compares them. *)
Theorem classical_search_first_maximum :
  forall (arrange : list string -> list string)
         (movies : list Binary64.Movie) (query : string)
         (computed : list spec_float),
    movies <> [] ->
    Binary64.scores arrange (Binary64.query_words arrange query) movies
    = Ok computed ->
    Forall (fun s => SFltb Binary64.minus_one s = true) computed ->
    exists (i : nat) (best : Binary64.Movie) (highest : spec_float),
      nth_error movies i = Some best
      /\ nth_error computed i = Some highest
      /\ Binary64.classical_search arrange movies query
         = Ok (Some (Binary64.id best))
      /\ (forall (j : nat) (s : spec_float),
            nth_error computed j = Some s -> SFltb highest s = false)
      /\ (forall (j : nat) (s : spec_float),
            nth_error computed j = Some s -> SFltb s highest = false ->
            (i <= j)%nat).
Proof.
  intros arrange movies query computed Hne Hs Hpos.
  pose proof (scores_length _ _ _ _ Hs) as Hlen.
  assert (Hc : combine movies computed <> []).
  { destruct movies as [|m l]; [congruence|].
    destruct computed as [|s r]; [discriminate Hlen | discriminate]. }
  destruct (fold_first_maximum (combine movies computed) Hc)
    as [i [best [highest [Hi [Hfold [Hmax Hfirst]]]]]].
  { intros [m s] Hp. apply in_combine_r in Hp.
    rewrite Forall_forall in Hpos. apply Hpos. assumption. }
  apply nth_error_combine in Hi. destruct Hi as [Hi1 Hi2].
  assert (Hpair : forall (j : nat) (s : spec_float),
             nth_error computed j = Some s ->
             exists m : Binary64.Movie,
               nth_error (combine movies computed) j = Some (m, s)).
  { intros j s Hj.
    destruct (nth_error movies j) as [m|] eqn:Hm.
    - exists m. apply nth_error_combine. split; assumption.
    - apply nth_error_None in Hm.
      assert (j < List.length computed)%nat
        by (apply nth_error_Some; congruence).
      lia. }
  exists i, best, highest. split; [assumption|]. split; [assumption|].
  split; [|split].
  - unfold Binary64.classical_search.
    destruct movies as [|first rest]; [congruence|].
    rewrite (loop_scores _ _ _ _ _ Hs), Hfold. reflexivity.
  - intros j s Hj. destruct (Hpair j s Hj) as [m Hm].
    apply (Hmax j (m, s) Hm).
  - intros j s Hj Hge.
    destruct (Nat.lt_ge_cases j i) as [Hlt|Hle]; [|assumption].
    destruct (Hpair j s Hj) as [m Hm].
    pose proof (Hfirst j (m, s) Hlt Hm) as F. cbn [snd] in F.
    congruence.
Qed.

Lemma classical_search_first_maximum_witness :
  Binary64.classical_search Binary64.first_seen Binary64.tied "matrix"
  = Ok (Some 71%Z).
Proof.
  assert (Hs : exists computed : list spec_float,
             Binary64.scores Binary64.first_seen
               (Binary64.query_words Binary64.first_seen "matrix")
               Binary64.tied
             = Ok computed
             /\ Forall (fun s => SFltb Binary64.minus_one s = true) computed
             /\ exists s : spec_float,
                  nth_error computed 0 = Some s
                  /\ forall h : spec_float,
                       In h computed -> SFltb s h = false).
  { vm_compute. eexists. split; [reflexivity|]. split.
    - repeat constructor.
    - eexists. split; [reflexivity|].
      intros h [<-|[<-|[]]]; reflexivity. }
  destruct Hs as [computed [Hs [Hpos [s [H0 Htop]]]]].
  destruct (classical_search_first_maximum Binary64.first_seen Binary64.tied
              "matrix" computed)
    as [i [best [highest [Hi [Hh [Hres [_ Hfirst]]]]]]];
    [discriminate | exact Hs | exact Hpos |].
  assert (Hle : (i <= 0)%nat).
  { apply (Hfirst 0%nat s H0). apply Htop.
    eapply nth_error_In. eassumption. }
  assert (i = 0%nat) by lia. subst i.
  simpl in Hi. injection Hi as <-. exact Hres.
Defined.

(** ** The order of the sets *)

Lemma same_elements_length (a b : list string) :
  NoDup a -> NoDup b -> (forall w : string, In w a <-> In w b) ->
  List.length a = List.length b.
Proof.
  intros Ha Hb H. apply Permutation_length, NoDup_Permutation; assumption.
Qed.

Lemma filter_mem_In (w : string) (a b : list string) :
  In w (filter (fun x => mem x b) a) <-> In w a /\ In w b.
Proof.
  rewrite filter_In, mem_In. reflexivity.
Qed.

(** The number of common elements does not depend on the order in which
    the sets list them, nor on how the sets were built. *)
Lemma common_order_irrelevant
  (arrange1 arrange2 : list string -> list string)
  (a1 a2 b1 b2 : list string) :
  Binary64.hash_order arrange1 ->
  Binary64.hash_order arrange2 ->
  (forall w : string, In w a1 <-> In w a2) ->
  (forall w : string, In w b1 <-> In w b2) ->
  Binary64.common arrange1 a1 b1 = Binary64.common arrange2 a2 b2.
Proof.
  intros H1 H2 Ha Hb. unfold Binary64.common, len.
  apply same_elements_length.
  - apply H1.
  - apply H2.
  - intro w. rewrite (proj2 (H1 _) w), (proj2 (H2 _) w), !filter_mem_In.
    rewrite (Ha w), (Hb w). reflexivity.
Qed.

Lemma score_order_irrelevant
  (arrange1 arrange2 : list string -> list string)
  (qw1 qw2 : list string) (m : Binary64.Movie) :
  Binary64.hash_order arrange1 ->
  Binary64.hash_order arrange2 ->
  (forall w : string, In w qw1 <-> In w qw2) ->
  Binary64.score arrange1 qw1 m = Binary64.score arrange2 qw2 m.
Proof.
  intros H1 H2 Hq. unfold Binary64.score.
  assert (Hw : forall t w : string,
             In w (arrange1 (split t)) <-> In w (arrange2 (split t))).
  { intros t w. rewrite (proj2 (H1 _) w), (proj2 (H2 _) w). reflexivity. }
  rewrite (common_order_irrelevant arrange1 arrange2 qw1 qw2
             (arrange1 (split (lower (get (Binary64.title m) ""))))
             (arrange2 (split (lower (get (Binary64.title m) ""))))
             H1 H2 Hq (Hw _)).
  rewrite (common_order_irrelevant arrange1 arrange2 qw1 qw2
             (arrange1 (split (lower (get (Binary64.overview m) ""))))
             (arrange2 (split (lower (get (Binary64.overview m) ""))))
             H1 H2 Hq (Hw _)).
  reflexivity.
Qed.

Lemma loop_order_irrelevant
  (arrange1 arrange2 : list string -> list string)
  (qw1 qw2 : list string) (movies : list Binary64.Movie)
  (st : Binary64.state) :
  Binary64.hash_order arrange1 ->
  Binary64.hash_order arrange2 ->
  (forall w : string, In w qw1 <-> In w qw2) ->
  Binary64.loop arrange1 qw1 movies st = Binary64.loop arrange2 qw2 movies st.
Proof.
  intros H1 H2 Hq. revert st.
  induction movies as [|m l IH]; intro st; cbn [Binary64.loop];
    [reflexivity|].
  rewrite (score_order_irrelevant arrange1 arrange2 qw1 qw2 m H1 H2 Hq).
  destruct (Binary64.score arrange2 qw2 m) as [s|e]; cbn [bind];
    [apply IH | reflexivity].
Qed.

(** C8: the heuristic ranker reads nothing but its two arguments, and the
    one thing the interpreter is free to choose from one call to the next,
    the order in which the sets of words list their elements, does not
    reach the result: two calls on the same candidate list and the same
    query return the same result (the same id, or the same exception)
    whatever the two orders are. *)
Theorem classical_search_deterministic :
  forall (arrange1 arrange2 : list string -> list string)
         (movies : list Binary64.Movie) (query : string),
    Binary64.hash_order arrange1 ->
    Binary64.hash_order arrange2 ->
    Binary64.classical_search arrange1 movies query
    = Binary64.classical_search arrange2 movies query.
Proof.
  intros arrange1 arrange2 movies query H1 H2.
  unfold Binary64.classical_search. destruct movies as [|first rest];
    [reflexivity|].
  rewrite (loop_order_irrelevant arrange1 arrange2
             (Binary64.query_words arrange1 query)
             (Binary64.query_words arrange2 query)
             (first :: rest) (None, Binary64.minus_one) H1 H2).
  - reflexivity.
  - intro w. unfold Binary64.query_words.
    rewrite (proj2 (H1 _) w), (proj2 (H2 _) w). reflexivity.
Qed.

Lemma first_seen_order : Binary64.hash_order Binary64.first_seen.
Proof.
  intro l. unfold Binary64.first_seen. split.
  - apply NoDup_nodup.
  - intro w. apply nodup_In.
Qed.

Lemma last_seen_order : Binary64.hash_order Binary64.last_seen.
Proof.
  intro l. unfold Binary64.last_seen. split.
  - apply NoDup_rev, NoDup_nodup.
  - intro w. rewrite <- in_rev. apply nodup_In.
Qed.

Lemma classical_search_deterministic_witness :
  Binary64.classical_search Binary64.first_seen Binary64.tied
    "matrix the solaris matrix"
  = Binary64.classical_search Binary64.last_seen Binary64.tied
      "matrix the solaris matrix".
Proof.
  apply (classical_search_deterministic Binary64.first_seen
           Binary64.last_seen Binary64.tied "matrix the solaris matrix").
  - exact first_seen_order.
  - exact last_seen_order.
Defined.

(** ** How the heuristic ranker ends *)

Lemma float_of_int_outcomes (z : Z) :
  (exists f : spec_float, Binary64.float_of_int z = Ok f)
  \/ Binary64.float_of_int z = Raise OverflowError.
Proof.
  unfold Binary64.float_of_int.
  destruct (binary_normalize Binary64.prec Binary64.emax z 0 false);
    try (left; eexists; reflexivity).
  right. reflexivity.
Qed.

Lemma truediv_20_outcomes (x : Binary64.number) :
  (exists q : spec_float, Binary64.truediv x 20 = Ok q)
  \/ Binary64.truediv x 20 = Raise OverflowError.
Proof.
  unfold Binary64.truediv. cbn [Z.eqb].
  destruct x as [z|f].
  - destruct (SFdiv Binary64.prec Binary64.emax (Binary64.unrounded z)
                (Binary64.unrounded 20));
      try (left; eexists; reflexivity).
    right. reflexivity.
  - left. rewrite float_of_int_20. cbn [bind]. eexists. reflexivity.
Qed.

Lemma score_outcomes
  (arrange : list string -> list string) (qw : list string)
  (m : Binary64.Movie) :
  (exists s : spec_float, Binary64.score arrange qw m = Ok s)
  \/ Binary64.score arrange qw m = Raise OverflowError.
Proof.
  unfold Binary64.score, Binary64.add.
  destruct (truediv_20_outcomes (get (Binary64.popularity m) (Binary64.Int 0)))
    as [[q Hq]|Hq]; rewrite Hq; cbn [bind]; [|right; reflexivity].
  match goal with
  | |- context [Binary64.float_of_int ?z] =>
      destruct (float_of_int_outcomes z) as [[f Hf]|Hf]; rewrite Hf
  end; cbn [bind].
  - left. eexists. reflexivity.
  - right. reflexivity.
Qed.

Lemma loop_outcomes
  (arrange : list string -> list string) (qw : list string)
  (movies : list Binary64.Movie) (st : Binary64.state) :
  (exists st' : Binary64.state,
      Binary64.loop arrange qw movies st = Ok st'
      /\ (fst st' = fst st
          \/ exists m : Binary64.Movie, In m movies /\ fst st' = Some m)
      /\ exists computed : list spec_float,
           Binary64.scores arrange qw movies = Ok computed)
  \/ (Binary64.loop arrange qw movies st = Raise OverflowError
      /\ Binary64.scores arrange qw movies = Raise OverflowError).
Proof.
  revert st. induction movies as [|m l IH]; intro st;
    cbn [Binary64.loop Binary64.scores].
  - left. exists st. split; [reflexivity|]. split; [left; reflexivity|].
    exists []. reflexivity.
  - destruct (score_outcomes arrange qw m) as [[s Hs]|Hs]; rewrite Hs;
      cbn [bind]; [|right; split; reflexivity].
    destruct (IH (Binary64.keep_best st m s))
      as [[st' [H1 [H2 [computed H3]]]]|[H1 H3]].
    + left. exists st'. split; [assumption|]. split.
      * destruct H2 as [H2|[m' [Hm' H2]]].
        -- unfold Binary64.keep_best in H2.
           destruct (SFltb (snd st) s); cbn [fst] in H2.
           ++ right. exists m. split; [left; reflexivity | assumption].
           ++ left. assumption.
        -- right. exists m'. split; [right; assumption | assumption].
      * exists (s :: computed). rewrite H3. reflexivity.
    + right. rewrite H3. split; [assumption | reflexivity].
Qed.

(** X8: on a non-empty candidate list the heuristic ranker, with the
    numbers of Python, ends in one of two ways: when every score is
    computed it returns the id of one of the candidates, whatever the
    popularities are, negative or not a number; otherwise the computation
    of a score has raised [OverflowError], as the division by 20 of an
    integer popularity beyond the range of the floats does, and the ranker
    raises it.  It never returns [None] there. *)
Theorem classical_search_candidate_or_overflow :
  forall (arrange : list string -> list string)
         (movies : list Binary64.Movie) (query : string),
    movies <> [] ->
    ((exists computed : list spec_float,
         Binary64.scores arrange (Binary64.query_words arrange query) movies
         = Ok computed)
     /\ exists m : Binary64.Movie,
          In m movies
          /\ Binary64.classical_search arrange movies query
             = Ok (Some (Binary64.id m)))
    \/ (Binary64.scores arrange (Binary64.query_words arrange query) movies
        = Raise OverflowError
        /\ Binary64.classical_search arrange movies query
           = Raise OverflowError).
Proof.
  intros arrange movies query Hne. unfold Binary64.classical_search.
  destruct movies as [|first rest]; [congruence|].
  destruct (loop_outcomes arrange (Binary64.query_words arrange query)
              (first :: rest) (None, Binary64.minus_one))
    as [[st' [H1 [H2 H3]]]|[H1 H3]]; rewrite H1; cbn [bind].
  - left. split; [assumption|].
    destruct H2 as [H2|[m [Hm H2]]]; rewrite H2; cbn [fst].
    + exists first. split; [left|]; reflexivity.
    + exists m. split; [assumption | reflexivity].
  - right. split; [assumption | reflexivity].
Qed.

Lemma classical_search_candidate_or_overflow_witness :
  Binary64.scores Binary64.first_seen
    (Binary64.query_words Binary64.first_seen "matrix") Binary64.huge
  = Raise OverflowError
  /\ Binary64.classical_search Binary64.first_seen Binary64.huge "matrix"
     = Raise OverflowError.
Proof.
  destruct (classical_search_candidate_or_overflow Binary64.first_seen
              Binary64.huge "matrix")
    as [[[computed H] _]|H].
  - discriminate.
  - vm_compute in H. discriminate H.
  - exact H.
Defined.
